(** * Conversation tree of the chat screen (webui/src/components/ChatScreen.tsx)

    A shallow embedding of the branching conversation model that the chat
    screen displays: the node map, the last-child descent [findLeafNode], the
    path display [getListMessageDisplay], the pending entry appended to the
    displayed list, and the handlers [sendNewMessage], [handleEditMessage]
    and [handleRegenerateMessage].

    Loops that JavaScript runs until their condition fails ([while]) take a
    fuel argument and return [None] when it runs out; everything else is a
    total function.  The storage helper and the application context that the
    screen imports are parameters of the screen's functions; models of them
    that follow the specification are kept apart in the modules
    [StorageUtils] and [Generation]. *)

From stdpp Require Import gmap strings list fin_maps fin_sets sorting relations.
From Stdlib Require Import Ascii ZArith Lia.

Local Open Scope Z_scope.

(** ** Data model *)

(** Modelled from the spec: the declaration of [Message] (utils/types) is
    outside the verified sources; the spec's data model gives the node type
    as one of root, user turn, assistant turn.  The screen only ever tests
    [msg.type !== 'root']. *)
Inductive MessageType : Type :=
  | TRoot
  | TUser
  | TAssistant.

#[global] Instance MessageType_eq_dec : EqDecision MessageType.
Proof. solve_decision. Defined.

(** An attachment item carried in [extra]; opaque to the conversation tree. *)
Record ExtraItem : Type := mkExtra {
  extra_name : string;
  extra_content : string;
}.

#[global] Instance ExtraItem_eq_dec : EqDecision ExtraItem.
Proof. solve_decision. Defined.

(** [Message | PendingMessage]: the two TypeScript types differ only in that
    the content of a pending message may still be [null].  Ids are JavaScript
    integers; [parent] is an id as well, a node without a parent carrying the
    sentinel -1, so that [msg.parent ?? -1] reads the field as it is. *)
Record Message : Type := mkMessage {
  id : Z;
  parent : Z;
  children : list Z;
  type : MessageType;
  content : option string;
  extra : list ExtraItem;
}.

#[global] Instance Message_eq_dec : EqDecision Message.
Proof. solve_decision. Defined.

Record MessageDisplay : Type := mkDisplay {
  msg : Message;
  siblingLeafNodeIds : list Z;
  siblingCurrIdx : Z;
  isPending : option bool;
}.

#[global] Instance MessageDisplay_eq_dec : EqDecision MessageDisplay.
Proof. solve_decision. Defined.

(** [Array.prototype.indexOf]: first position of [x], or -1. *)
Fixpoint indexOf (x : Z) (l : list Z) : Z :=
  match l with
  | [] => -1
  | y :: l' =>
      if decide (y = x) then 0
      else let r := indexOf x l' in if decide (r = -1) then -1 else r + 1
  end.

(** ** The node map and the last-child descent *)

(** [for (const msg of msgs) nodeMap.set(msg.id, msg)]: a later message with
    the same id overwrites an earlier one. *)
Definition nodeMap (msgs : list Message) : gmap Z Message :=
  foldl (λ nm m, <[id m := m]> nm) ∅ msgs.

(** The [while (currNode)] loop of [findLeafNode]; [None] is returned when the
    fuel runs out, that is, when the loop has not finished after [fuel]
    tests of its condition. *)
Fixpoint findLeafNode_loop (fuel : nat) (nm : gmap Z Message)
    (currNode : option Message) : option Z :=
  match fuel with
  | O => None
  | S fuel' =>
      match currNode with
      | None => Some (-1)
      | Some n =>
          match last (children n) with
          | None => Some (id n)
          | Some c => findLeafNode_loop fuel' nm (nm !! c)
          end
      end
  end.

Definition findLeafNode (fuel : nat) (nm : gmap Z Message) (msgId : Z)
    : option Z :=
  findLeafNode_loop fuel nm (nm !! msgId).

(** The natural leaf under an id, in the words of the spec: repeatedly follow
    the last child until a childless node is reached (an id that is not in
    the map has the sentinel -1 as its leaf). *)
Inductive natural_leaf (nm : gmap Z Message) : Z → Z → Prop :=
  | leaf_absent i :
      nm !! i = None → natural_leaf nm i (-1)
  | leaf_here i n :
      nm !! i = Some n → children n = [] → natural_leaf nm i (id n)
  | leaf_below i n c l :
      nm !! i = Some n → last (children n) = Some c →
      natural_leaf nm c l → natural_leaf nm i l.

(** ** The displayed path *)

Section Display.
(** [StorageUtils.filterByLeafNodeId] lives in utils/storage, outside the
    verified sources: the display is defined over any implementation of it
    ([None]: the helper does not return). *)
Variable filterByLeafNodeId :
  list Message → Z → bool → option (list Message).

(** One iteration of [for (const msg of currNodes)], [res] being the
    entries pushed so far. *)
Definition displayStep (fuel : nat) (nm : gmap Z Message)
    (res : list MessageDisplay) (m : Message) : option (list MessageDisplay) :=
  match nm !! parent m with
  | None => Some res
  | Some parentNode =>
      let siblings := children parentNode in
      if decide (type m ≠ TRoot) then
        leaves ← mapM (findLeafNode fuel nm) siblings;
        Some (res ++ [ {| msg := m;
                          siblingLeafNodeIds := leaves;
                          siblingCurrIdx := indexOf (id m) siblings;
                          isPending := None |} ])
      else Some res
  end.

Fixpoint displayLoop (fuel : nat) (nm : gmap Z Message)
    (res : list MessageDisplay) (currNodes : list Message)
    : option (list MessageDisplay) :=
  match currNodes with
  | [] => Some res
  | m :: rest =>
      res' ← displayStep fuel nm res m;
      displayLoop fuel nm res' rest
  end.

Definition getListMessageDisplay (fuel : nat) (msgs : list Message)
    (leafNodeId : Z) : option (list MessageDisplay) :=
  currNodes ← filterByLeafNodeId msgs leafNodeId true;
  displayLoop fuel (nodeMap msgs) [] currNodes.
End Display.

(** ** Storage and generation (utils/storage, utils/app.context) *)

Module StorageUtils.
(** Modelled from the spec: the upward walk of [filterByLeafNodeId]
    (utils/storage, outside the verified sources).  Spec, path resolver,
    step 2: walk upward from the resolved leaf via parent links, collecting
    nodes; the walk ends at the first parent id that is not in the node
    map. *)
Fixpoint walkUp (fuel : nat) (nm : gmap Z Message) (curr : option Message)
    (collected : list Message) : option (list Message) :=
  match fuel with
  | O => None
  | S fuel' =>
      match curr with
      | None => Some collected
      | Some n => walkUp fuel' nm (nm !! parent n) (collected ++ [n])
      end
  end.

(** Modelled from the spec: the leaf resolution of [filterByLeafNodeId]
    (utils/storage, outside the verified sources).  Spec, path resolver,
    step 1: the "none" sentinel -1 resolves to the forest's natural leaf,
    found from the root by following the last child until a childless node
    is reached. *)
Definition resolveLeaf (fuel : nat) (msgs : list Message) (leafNodeId : Z)
    : option Z :=
  if decide (leafNodeId = -1) then
    match List.find (λ m, bool_decide (type m = TRoot)) msgs with
    | Some r => findLeafNode fuel (nodeMap msgs) (id r)
    | None => Some (-1)
    end
  else Some leafNodeId.

(** Modelled from the spec: [filterByLeafNodeId] of utils/storage, outside
    the verified sources.  Spec, path resolver, steps 1 and 2: resolve the
    leaf, walk upward collecting nodes, then reverse to get root-to-leaf
    order.  The third argument ([true] at the only call in the screen) keeps
    the root node in the result; [false] drops root-type nodes. *)
Definition filterByLeafNodeId (fuel : nat) (msgs : list Message)
    (leafNodeId : Z) (includeRoot : bool) : option (list Message) :=
  leaf ← resolveLeaf fuel msgs leafNodeId;
  collected ← walkUp fuel (nodeMap msgs) (nodeMap msgs !! leaf) [];
  Some (filter (λ m, type m ≠ TRoot ∨ includeRoot = true) (reverse collected)).

(** A node with one more child id at the end of its [children]. *)
Definition addChild (c : Z) (m : Message) : Message :=
  {| id := id m; parent := parent m; children := children m ++ [c];
     type := type m; content := content m; extra := extra m |}.

(** Modelled from the spec: the message store's
    [append(conversationId, parentId, node)] (utils/storage, outside the
    verified sources), here on the messages of one conversation.  The node
    is added to the store and its id is appended to the parent's [children]
    (creation order); [None] stands for the failure [InvalidParent]. *)
Definition appendMsg (msgs : list Message) (parentId : Z) (node : Message)
    : option (list Message) :=
  match nodeMap msgs !! parentId with
  | None => None
  | Some _ =>
      Some (((λ m, if decide (id m = parentId) then addChild (id node) m
                   else m) <$> msgs) ++ [node])
  end.
End StorageUtils.

(** Modelled from the spec: the streaming assembler and the generation
    controller (utils/app.context) are outside the verified sources.  Every
    definition of this module follows the spec's component design: one
    assembler per generation with states Idle, Streaming, Committed,
    Cancelled, Failed; the controller keeps every assembler it has created
    together with the message store and the next id to assign. *)
Module Generation.
Inductive AssemblerState : Type :=
  | Idle | Streaming | Committed | Cancelled | Failed.

Inductive FailReason : Type :=
  | NetworkError | InvalidResponse | Aborted.

Inductive Error : Type :=
  | InvalidParent
  | AlreadyGenerating.

#[global] Instance AssemblerState_eq_dec : EqDecision AssemblerState.
Proof. solve_decision. Defined.

Record Assembler : Type := mkAssembler {
  conv : string;
  state : AssemblerState;
  pending : Message;
}.

Record Controller : Type := mkController {
  store : gmap string (list Message);
  assemblers : list Assembler;
  nextId : Z;
}.

(** The assembler belongs to the conversation and is streaming. *)
Definition streamingFor (c : string) (a : Assembler) : bool :=
  bool_decide (conv a = c ∧ state a = Streaming).

(** Modelled from the spec: [isGenerating(conversationId)], true while an
    assembler of the conversation is streaming. *)
Definition isGenerating (ctl : Controller) (c : string) : bool :=
  existsb (streamingFor c) (assemblers ctl).

(** The messages stored for a conversation. *)
Definition messagesOf (ctl : Controller) (c : string) : list Message :=
  default [] (store ctl !! c).

(** Modelled from the spec: the pending slot of a conversation, the node
    under construction. *)
Definition pendingOf (ctl : Controller) (c : string) : option Message :=
  pending <$> List.find (streamingFor c) (assemblers ctl).

(** Modelled from the spec:
    [start(conversationId, parentId, promptContent, extraItems)] is rejected
    with [AlreadyGenerating] while a stream is active for the conversation;
    otherwise it reserves a pending node under [parentId], not yet linked
    into the parent's children, and enters [Streaming].  The prompt and the
    extra items go to the transport. *)
Definition start (c : string) (parentId : Z) (promptContent : option string)
    (extraItems : list ExtraItem) (ctl : Controller) : Error + (Z * Controller) :=
  if isGenerating ctl c then inl AlreadyGenerating
  else
    let p := {| id := nextId ctl; parent := parentId; children := [];
                type := TAssistant; content := None; extra := [] |} in
    inr (nextId ctl,
         {| store := store ctl;
            assemblers := assemblers ctl ++
              [ {| conv := c; state := Streaming; pending := p |} ];
            nextId := nextId ctl + 1 |}).

(** Modelled from the spec: append semantics for text deltas, on a content
    that starts as [null]. *)
Definition appendDelta (delta : string) (m : Message) : Message :=
  {| id := id m; parent := parent m; children := children m;
     type := type m;
     content := Some (default EmptyString (content m) +:+ delta);
     extra := extra m |}.

(** An update of the streaming assembler of a conversation. *)
Definition onStreaming (c : string) (f : Assembler → Assembler)
    (l : list Assembler) : list Assembler :=
  (λ a, if streamingFor c a then f a else a) <$> l.

(** Modelled from the spec: an incoming chunk updates the pending content
    in place, text deltas being appended; the result is the pending id
    handed to the caller's callback. *)
Definition chunk (c : string) (delta : string) (ctl : Controller)
    : option Z * Controller :=
  (id <$> pendingOf ctl c,
   {| store := store ctl;
      assemblers :=
        onStreaming c (λ a, {| conv := conv a; state := state a;
                               pending := appendDelta delta (pending a) |})
                    (assemblers ctl);
      nextId := nextId ctl |}).

(** Modelled from the spec: leaving [Streaming] with the pending node
    appended to the store as a real child and the pending slot cleared;
    [final] is [Committed] or [Cancelled]. *)
Definition finish (final : AssemblerState) (c : string) (ctl : Controller)
    : Error + Controller :=
  match pendingOf ctl c with
  | None => inr ctl
  | Some p =>
      match StorageUtils.appendMsg (messagesOf ctl c) (parent p) p with
      | None => inl InvalidParent
      | Some msgs' =>
          inr {| store := <[c := msgs']> (store ctl);
                 assemblers :=
                   onStreaming c (λ a, {| conv := conv a; state := final;
                                          pending := pending a |})
                               (assemblers ctl);
                 nextId := nextId ctl |}
      end
  end.

(** Modelled from the spec: [commit()], on stream completion. *)
Definition commit : string → Controller → Error + Controller :=
  finish Committed.

(** Modelled from the spec: [cancel()], where the content built so far is
    still committed (a variant of commit, not a discard). *)
Definition cancel : string → Controller → Error + Controller :=
  finish Cancelled.

(** Modelled from the spec: [stop(conversationId)] delegates to the active
    assembler's cancel. *)
Definition stop : string → Controller → Error + Controller := cancel.

(** Modelled from the spec: [fail(reason)], where the pending node is
    discarded, not committed, and the caller gets the reason. *)
Definition fail (c : string) (reason : FailReason) (ctl : Controller)
    : FailReason * Controller :=
  (reason,
   {| store := store ctl;
      assemblers :=
        onStreaming c (λ a, {| conv := conv a; state := Failed;
                               pending := pending a |})
                    (assemblers ctl);
      nextId := nextId ctl |}).

(** Modelled from the spec: [regenerate] starts a new assistant generation
    directly under the parent of the original assistant message. *)
Definition regenerate (c : string) (parentId : Z) (extraItems : list ExtraItem)
    (ctl : Controller) : Error + (Z * Controller) :=
  start c parentId None extraItems ctl.

(** Modelled from the spec: [edit] puts the new user content under the
    parent of the original message, as a sibling of the original, before a
    new assistant generation starts under that edit. *)
Definition edit (c : string) (parentId : Z) (newContent : string)
    (extraItems : list ExtraItem) (ctl : Controller)
    : Error + (Z * Controller) :=
  if isGenerating ctl c then inl AlreadyGenerating
  else
    let u := {| id := nextId ctl; parent := parentId; children := [];
                type := TUser; content := Some newContent;
                extra := extraItems |} in
    match StorageUtils.appendMsg (messagesOf ctl c) parentId u with
    | None => inl InvalidParent
    | Some msgs' =>
        start c (id u) (Some newContent) extraItems
              {| store := <[c := msgs']> (store ctl);
                 assemblers := assemblers ctl;
                 nextId := nextId ctl + 1 |}
    end.

(** Modelled from the spec: what the transport delivers for one
    generation, the text deltas in arrival order and then how the stream
    ends (completion, a stop by the user, or an error). *)
Inductive Ending : Type :=
  | Completes
  | UserStops
  | Breaks (reason : FailReason).

(** Modelled from the spec: the chunks of a stream applied in arrival
    order. *)
Definition feed (c : string) (deltas : list string) (ctl : Controller)
    : list (option Z) * Controller :=
  foldl (λ '(ids, ctl) delta,
           let '(i, ctl') := chunk c delta ctl in (ids ++ [i], ctl'))
        ([], ctl) deltas.

(** Modelled from the spec: the end of a stream, committing on completion,
    cancelling on a stop, failing on an error. *)
Definition conclude (c : string) (e : Ending) (ctl : Controller) : Controller :=
  match e with
  | Completes => match commit c ctl with inr ctl' => ctl' | inl _ => ctl end
  | UserStops => match stop c ctl with inr ctl' => ctl' | inl _ => ctl end
  | Breaks reason => (fail c reason ctl).2
  end.

(** Modelled from the spec: [replaceMessageAndGenerate(convId,
    parentNodeId, content, extra, onChunk)] of utils/app.context as the
    screen calls it, an edit when [content] is given and a regeneration
    when it is [null], run to the end of the stream; the result lists the
    ids handed to [onChunk]. *)
Definition replaceMessageAndGenerate (deltas : list string) (e : Ending)
    (c : string) (parentNodeId : Z) (newContent : option string)
    (extraItems : list ExtraItem) (ctl : Controller)
    : list (option Z) * Controller :=
  let started :=
    match newContent with
    | Some s => edit c parentNodeId s extraItems ctl
    | None => regenerate c parentNodeId extraItems ctl
    end in
  match started with
  | inl _ => ([], ctl)
  | inr (_, ctl1) =>
      let '(ids, ctl2) := feed c deltas ctl1 in
      (ids, conclude c e ctl2)
  end.
End Generation.

(** ** The chat screen *)

(** What the handlers do to the outside, in the order they do it. *)
Inductive Effect : Type :=
  | ToastError (text : string)
  | TextareaSetValue (text : string)
  | ScrollToBottom
  | SetCurrNodeId (i : Z)
  | SendMessage (convId : option string) (leafNodeId : option Z)
      (text : string) (items : list ExtraItem)
  | ReplaceMessageAndGenerate (convId : string) (parentNodeId : Z)
      (text : option string) (items : list ExtraItem)
  | ClearItems.

(** The state the component owns: [currNodeId] ([useState<number>(-1)]), the
    textarea draft, the extra-context items, and the log of effects (oldest
    first). *)
Record Screen : Type := mkScreen {
  currNodeId : Z;
  textareaValue : string;
  extraItems : list ExtraItem;
  effects : list Effect;
}.

Record ViewingChat : Type := mkViewingChat {
  convId : string;
  messages : list Message;
}.

(** JavaScript's white space and line terminators among the code units below
    256, and [String.prototype.trim]. *)
Definition isWhiteSpace (a : ascii) : bool :=
  bool_decide (nat_of_ascii a ∈ [9; 10; 11; 12; 13; 32; 160]%nat).

Fixpoint trimStart (s : string) : string :=
  match s with
  | EmptyString => EmptyString
  | String a s' => if isWhiteSpace a then trimStart s' else s
  end.

Definition trim (s : string) : string :=
  String.rev (trimStart (String.rev (trimStart s))).

(** [messages.at(-1)?.msg.id]. *)
Definition lastMsgId (messages : list MessageDisplay) : option Z :=
  (λ d, id (msg d)) <$> last messages.

(** [pendingMsgDisplay] and the list handed to the renderer,
    [[...messages, ...pendingMsgDisplay]]. *)
Definition pendingMsgDisplay (pendingMsg : option Message)
    (messages : list MessageDisplay) : list MessageDisplay :=
  match pendingMsg with
  | Some p =>
      if decide (lastMsgId messages ≠ Some (id p)) then
        [ {| msg := p; siblingLeafNodeIds := []; siblingCurrIdx := 0;
             isPending := Some true |} ]
      else []
  | None => []
  end.

Definition displayed (pendingMsg : option Message)
    (messages : list MessageDisplay) : list MessageDisplay :=
  messages ++ pendingMsgDisplay pendingMsg messages.

(** [pendingMessages[currConvId ?? '']]. *)
Definition pendingMsgOf (pendingMessages : gmap string Message)
    (currConvId : option string) : option Message :=
  pendingMessages !! default EmptyString currConvId.

Section ChatScreen.
(** The application context ([useAppContext]) is outside the verified
    sources: its state and its operations are parameters.  [sendMessage] and
    [replaceMessageAndGenerate] report the ids they hand to [onChunk]. *)
Context {App : Type}.
Variable isGenerating : App → string → bool.
Variable sendMessage :
  option string → option Z → string → list ExtraItem → App →
  bool * list (option Z) * App.
Variable replaceMessageAndGenerate :
  string → Z → option string → list ExtraItem → App →
  list (option Z) * App.

(** Handlers run on the screen state and the application state. *)
Definition Act (A : Type) : Type := Screen * App → A * (Screen * App).

#[local] Instance Act_ret : MRet Act := λ A x w, (x, w).
#[local] Instance Act_bind : MBind Act :=
  λ A B f act w, let '(x, w') := act w in f x w'.

Definition perform (e : Effect) (upd : Screen → Screen) : Act unit :=
  λ '(s, app),
    let s' := upd s in
    (tt, ({| currNodeId := currNodeId s'; textareaValue := textareaValue s';
             extraItems := extraItems s';
             effects := effects s' ++ [e] |}, app)).

Definition toast_error (text : string) : Act unit :=
  perform (ToastError text) (λ s, s).

Definition textarea_value : Act string :=
  λ '(s, app), (textareaValue s, (s, app)).

Definition textarea_setValue (text : string) : Act unit :=
  perform (TextareaSetValue text)
    (λ s, {| currNodeId := currNodeId s; textareaValue := text;
             extraItems := extraItems s; effects := effects s |}).

Definition scrollToBottom : Act unit := perform ScrollToBottom (λ s, s).

Definition setCurrNodeId (i : Z) : Act unit :=
  perform (SetCurrNodeId i)
    (λ s, {| currNodeId := i; textareaValue := textareaValue s;
             extraItems := extraItems s; effects := effects s |}).

Definition extraContext_items : Act (list ExtraItem) :=
  λ '(s, app), (extraItems s, (s, app)).

Definition extraContext_clearItems : Act unit :=
  perform ClearItems
    (λ s, {| currNodeId := currNodeId s; textareaValue := textareaValue s;
             extraItems := []; effects := effects s |}).

Definition generating (c : string) : Act bool :=
  λ '(s, app), (isGenerating app c, (s, app)).

(** [onChunk]: [if (currLeafNodeId) setCurrNodeId(currLeafNodeId)]; an
    absent id and the id 0 are falsy. *)
Definition onChunk (currLeafNodeId : option Z) : Act unit :=
  match currLeafNodeId with
  | Some i => if decide (i ≠ 0) then setCurrNodeId i else mret tt
  | None => mret tt
  end.

Fixpoint onChunks (ids : list (option Z)) : Act unit :=
  match ids with
  | [] => mret tt
  | i :: rest => onChunk i;; onChunks rest
  end.

Definition call_sendMessage (c : option string) (leaf : option Z)
    (text : string) (items : list ExtraItem) : Act bool :=
  perform (SendMessage c leaf text items) (λ s, s);;
  '(ok, ids) ← (λ '(s, app),
                  let '(r, app') := sendMessage c leaf text items app in
                  (r, (s, app'))) : Act (bool * list (option Z));
  onChunks ids;;
  mret ok.

Definition call_replaceMessageAndGenerate (c : string) (parentNodeId : Z)
    (text : option string) (items : list ExtraItem) : Act unit :=
  perform (ReplaceMessageAndGenerate c parentNodeId text items) (λ s, s);;
  ids ← (λ '(s, app),
           let '(ids, app') :=
             replaceMessageAndGenerate c parentNodeId text items app in
           (ids, (s, app'))) : Act (list (option Z));
  onChunks ids.

(** [if (!ok) act]. *)
Definition unless (ok : bool) (act : Act unit) : Act unit :=
  if ok then mret tt else act.

Definition currConvId (viewingChat : option ViewingChat) : option string :=
  convId <$> viewingChat.

(** [sendNewMessage]; the guard reads the draft and [isGenerating], neither
    of which changes anything, so both operands of [||] are taken first. *)
Definition sendNewMessage (viewingChat : option ViewingChat)
    (messages : list MessageDisplay) : Act unit :=
  lastInpMsg ← textarea_value;
  busy ← generating (default EmptyString (currConvId viewingChat));
  if (String.length (trim lastInpMsg) =? 0)%nat || busy then
    toast_error "Please enter a message"
  else
    textarea_setValue EmptyString;;
    scrollToBottom;;
    setCurrNodeId (-1);;
    items ← extraContext_items;
    ok ← call_sendMessage (currConvId viewingChat) (lastMsgId messages)
           lastInpMsg items;
    unless ok (textarea_setValue lastInpMsg);;
    extraContext_clearItems.

Definition handleEditMessage (viewingChat : option ViewingChat)
    (m : Message) (newContent : string) : Act unit :=
  match viewingChat with
  | None => mret tt
  | Some chat =>
      setCurrNodeId (id m);;
      scrollToBottom;;
      call_replaceMessageAndGenerate (convId chat) (parent m)
        (Some newContent) (extra m);;
      setCurrNodeId (-1);;
      scrollToBottom
  end.

Definition handleRegenerateMessage (viewingChat : option ViewingChat)
    (m : Message) : Act unit :=
  match viewingChat with
  | None => mret tt
  | Some chat =>
      setCurrNodeId (parent m);;
      scrollToBottom;;
      call_replaceMessageAndGenerate (convId chat) (parent m)
        None (extra m);;
      setCurrNodeId (-1);;
      scrollToBottom
  end.
End ChatScreen.

(** ** Notions used in the statements *)

(** Acyclicity of the [children] links, witnessed by a rank that grows from
    every node to each of its children (the depth in a forest; the id itself
    when ids are assigned monotonically). *)
Definition acyclic_by (rank : Z → Z) (msgs : list Message) : bool :=
  forallb (λ m, forallb (λ c, rank (id m) <? rank c) (children m)) msgs.

(** The same for the [parent] links: the rank drops from a node to its
    parent id. *)
Definition parents_by (rank : Z → Z) (msgs : list Message) : bool :=
  forallb (λ m, rank (parent m) <? rank (id m)) msgs.

(** A message forest: no cycle through [children] nor through [parent]. *)
Definition forest_by (rank : Z → Z) (msgs : list Message) : bool :=
  acyclic_by rank msgs && parents_by rank msgs.

(** One step of the descent: [c] is the last child of the stored node
    [i]. *)
Definition lastChild (nm : gmap Z Message) (i c : Z) : Prop :=
  ∃ n, nm !! i = Some n ∧ last (children n) = Some c.

(** The descent from [i] runs into a cycle through last children: following
    last children from [i] leads to a node [j] that following last children
    leads back to. *)
Definition cyclic_from (nm : gmap Z Message) (i : Z) : Prop :=
  ∃ j, rtc (lastChild nm) i j ∧ tc (lastChild nm) j j.

(** The nodes of a candidate path that the display keeps: the parent is in
    the node map and the node is not of type root. *)
Definition shown (nm : gmap Z Message) (m : Message) : Prop :=
  is_Some (nm !! parent m) ∧ type m ≠ TRoot.

#[global] Instance shown_dec nm m : Decision (shown nm m).
Proof. unfold shown. apply _. Defined.

(** [d] is the entry displayed for the path node [m]. *)
Definition entry_of (nm : gmap Z Message) (m : Message) (d : MessageDisplay)
    : Prop :=
  msg d = m ∧ isPending d = None ∧
  ∃ p, nm !! parent m = Some p ∧
       Forall2 (natural_leaf nm) (children p) (siblingLeafNodeIds d) ∧
       siblingCurrIdx d = indexOf (id m) (children p).

(** [a] is the node that [b]'s parent id names, and the ancestors of a
    node. *)
Definition parent_of (nm : gmap Z Message) (a b : Message) : Prop :=
  nm !! parent b = Some a.

Definition ancestor (nm : gmap Z Message) : relation Message :=
  tc (parent_of nm).

(** The ids that [onChunk] acts on: the truthy ones. *)
Definition truthyIds (ids : list (option Z)) : list Z :=
  omap (λ o, i ← o; if decide (i ≠ 0) then Some i else None) ids.

(** What the stream has folded into the pending content after the given
    deltas, starting from a content that is still [null]. *)
Definition folded (deltas : list string) : option string :=
  foldl (λ acc delta, Some (default EmptyString acc +:+ delta)) None deltas.




(** Number of map keys whose rank is at least that of [i]: it drops at every
    step of the descent. *)
Definition rank_above (rank : Z → Z) (nm : gmap Z Message) (i : Z) : nat :=
  size (filter (λ k, rank i ≤ rank k) (dom nm)).

(** A message with its content replaced. *)
Definition withContent (m : Message) (text : option string) : Message :=
  {| id := id m; parent := parent m; children := children m;
     type := type m; content := text; extra := extra m |}.

(** The pending node that [start] reserves. *)
Definition reserved (pid parentId : Z) : Message :=
  {| id := pid; parent := parentId; children := []; type := TAssistant;
     content := None; extra := [] |}.

(** Ids are assigned from [nid] on: every stored id and every listed child
    id is below it. *)
Definition fresh_from (nid : Z) (msgs : list Message) : bool :=
  forallb (λ m, (id m <? nid) && forallb (λ ch, ch <? nid) (children m)) msgs.

(** History is kept from the forest [msgs] to the forest [msgs']: the node
    [M] is stored unmodified, so is every child of its parent [P], and in
    every display computed on [msgs'] an entry under [P] lists, at the
    position of each of [P]'s old children, the leaf that this child led to
    in [msgs]. *)
Definition history_kept (msgs msgs' : list Message) (M P : Message) : Prop :=
  nodeMap msgs' !! id M = Some M ∧
  (∀ ch, ch ∈ children P → nodeMap msgs' !! ch = nodeMap msgs !! ch) ∧
  (∀ helper fuel leafNodeId res d (k : nat) ch l,
     getListMessageDisplay helper fuel msgs' leafNodeId = Some res →
     d ∈ res → parent (msg d) = parent M →
     children P !! k = Some ch → natural_leaf (nodeMap msgs) ch l →
     siblingLeafNodeIds d !! k = Some l).

(** Parent ids are assigned before [nid] as well: no stored node names a
    parent id that is still to be assigned. *)
Definition parents_below (nid : Z) (msgs : list Message) : bool :=
  forallb (λ m, parent m <? nid) msgs.

(** A value above the rank of every stored id, and the rank extended by it
    to the ids assigned from [nid] on, in the order of their assignment. *)
Definition rank_bound (rank : Z → Z) (msgs : list Message) : Z :=
  foldr (λ m b, Z.max (rank (id m) + 1) b) 0 msgs.

Definition rerank (rank : Z → Z) (nid : Z) (msgs : list Message) (k : Z) : Z :=
  if decide (k < nid) then rank k else rank_bound rank msgs + (k - nid).

(** The old branches are listed when the view points at the node [L] of the
    forest [msgs']: the path resolver returns a display with the entry of
    that node, and the entry's [siblingLeafNodeIds] starts with the leaves
    that the children of [P] led to in the forest [msgs], in child order. *)
Definition branches_listed (fuel : nat) (msgs msgs' : list Message)
    (P : Message) (L : Z) : Prop :=
  ∃ res d leaves more,
    getListMessageDisplay (StorageUtils.filterByLeafNodeId fuel) fuel msgs' L
      = Some res ∧
    d ∈ res ∧ nodeMap msgs' !! L = Some (msg d) ∧
    Forall2 (natural_leaf (nodeMap msgs)) (children P) leaves ∧
    siblingLeafNodeIds d = leaves ++ more.

(** ** Concrete forests *)

(** The scenario forest: root 0, user turn 1 under it, assistant turn 2
    under that. *)
Definition scenario_root : Message :=
  {| id := 0; parent := -1; children := [1]; type := TRoot;
     content := None; extra := [] |}.

Definition scenario_user : Message :=
  {| id := 1; parent := 0; children := [2]; type := TUser;
     content := Some "hello"; extra := [] |}.

Definition scenario_assistant : Message :=
  {| id := 2; parent := 1; children := []; type := TAssistant;
     content := Some "hi there"; extra := [] |}.

Definition scenario : list Message :=
  [scenario_root; scenario_user; scenario_assistant].

(** A node map with a cycle: the only child of node 1 is node 1. *)
Definition selfChild : list Message :=
  [ {| id := 1; parent := -1; children := [1]; type := TRoot;
       content := None; extra := [] |} ].

(** A broken chain: the parent 99 of node 5 is not stored. *)
Definition brokenChain : list Message :=
  [ {| id := 5; parent := 99; children := [6]; type := TUser;
       content := Some "question"; extra := [] |};
    {| id := 6; parent := 5; children := []; type := TAssistant;
       content := Some "answer"; extra := [] |} ].

(** A node that its parent does not list: node 1 names 0 as its parent, the
    children of 0 are empty. *)
Definition unlisted : list Message :=
  [ {| id := 0; parent := -1; children := []; type := TRoot;
       content := None; extra := [] |};
    {| id := 1; parent := 0; children := []; type := TUser;
       content := Some "hello"; extra := [] |} ].

(** A pending assistant message for conversation "conv-1", and the committed
    path ending at the user turn of the scenario. *)
Definition pendingByConv : gmap string Message :=
  {[ "conv-1" := {| id := 3; parent := 1; children := []; type := TAssistant;
                    content := Some "Hel"; extra := [] |} ]}.

Definition userEntry : MessageDisplay :=
  {| msg := scenario_user; siblingLeafNodeIds := [2];
     siblingCurrIdx := 0; isPending := None |}.

Definition committedPath : list MessageDisplay := [userEntry].

(** A screen with a typed draft and one attachment, and a screen at rest. *)
Definition draftScreen : Screen :=
  {| currNodeId := 2; textareaValue := "draft";
     extraItems := [ {| extra_name := "notes.txt";
                        extra_content := "pasted" |} ];
     effects := [] |}.

Definition restingScreen : Screen :=
  {| currNodeId := -1; textareaValue := "again"; extraItems := [];
     effects := [] |}.

Definition viewingScenario : option ViewingChat :=
  Some {| convId := "conv-1"; messages := scenario |}.

(** A controller holding the scenario forest as conversation "conv-1", with
    no generation under way, and the same controller once a generation has
    been started under the user turn 1. *)
Definition idleController : Generation.Controller :=
  {| Generation.store := {[ "conv-1" := scenario ]};
     Generation.assemblers := [];
     Generation.nextId := 3 |}.

Definition busyController : Generation.Controller :=
  match Generation.start "conv-1" 1 None [] idleController with
  | inr (_, ctl) => ctl
  | inl _ => idleController
  end.

(** ** The rest of the chat screen, the header and the configuration *)

(** The [messages] memo of the component: nothing without a viewed chat,
    [getListMessageDisplay] on its messages and the current leaf pointer
    otherwise. *)
Definition screenMessages
    (filterByLeafNodeId : list Message → Z → bool → option (list Message))
    (fuel : nat) (viewingChat : option ViewingChat) (currNode : Z)
    : option (list MessageDisplay) :=
  match viewingChat with
  | None => Some []
  | Some chat =>
      getListMessageDisplay filterByLeafNodeId fuel (messages chat) currNode
  end.

(** Every code unit of the string is white space. *)
Fixpoint allWhite (s : string) : bool :=
  match s with
  | EmptyString => true
  | String a s' => isWhiteSpace a && allWhite s'
  end.

(** [prefilledMsg], over the query parameters of [window.location.href] in
    their order ([URLSearchParams]: [get] yields the first value of a name,
    [has] tells whether the name occurs). *)
Module prefilledMsg.
Definition get (name : string) (params : list (string * string))
    : option string :=
  snd <$> List.find (λ kv, bool_decide (kv.1 = name)) params.

Definition has (name : string) (params : list (string * string)) : bool :=
  bool_decide (is_Some (get name params)).

(** [url.searchParams.get('m') ?? url.searchParams.get('q') ?? '']. *)
Definition content (params : list (string * string)) : string :=
  match get "m" params with
  | Some v => v
  | None => default EmptyString (get "q" params)
  end.

(** [url.searchParams.has('q')]. *)
Definition shouldSend (params : list (string * string)) : bool :=
  has "q" params.

(** [clear()] hands these names to [cleanCurrentUrl]. *)
Definition clear : list string := ["m"; "q"].
End prefilledMsg.

(** What the mount effect of the screen did besides running a handler:
    whether it focused the textarea, and the query parameters it had removed
    from the URL. *)
Record MountOutcome : Type := mkMountOutcome {
  focused : bool;
  cleanedParams : list string;
}.

(** The effect [useEffect(..., [textarea.ref])]: send at once when the URL
    asks for it, focus the textarea otherwise, and clear the URL in both
    cases.  [sendNewMessage] is started, not awaited; the result is the state
    once it has finished. *)
Definition mountEffect {App : Type}
    (isGenerating : App → string → bool)
    (sendMessage : option string → option Z → string → list ExtraItem →
                   App → bool * list (option Z) * App)
    (params : list (string * string))
    (viewingChat : option ViewingChat) (messages : list MessageDisplay)
    (w : Screen * App) : MountOutcome * (Screen * App) :=
  if prefilledMsg.shouldSend params then
    ({| focused := false; cleanedParams := prefilledMsg.clear |},
     (sendNewMessage isGenerating sendMessage viewingChat messages w).2)
  else
    ({| focused := true; cleanedParams := prefilledMsg.clear |}, w).

(** The paste handler of [ChatInput] ([onPasteCapture]). *)
Module ChatInput.
(** An entry of [clipboardData.items]: its [kind] and what [getAsFile()]
    gives ([null] when there is no file); a file is known by its name. *)
Record ClipboardItem : Type := mkClipboardItem {
  kind : string;
  getAsFile : option string;
}.

(** What the handler does with the pasted data. *)
Inductive PasteAction : Type :=
  | AddContextItem (name : string) (text : string)
  | AddFiles (files : list string)
  | PasteAsUsual.

(** The files of the clipboard: the items of kind 'file' whose
    [getAsFile()] is not [null]. *)
Definition clipboardFiles (items : list ClipboardItem) : list string :=
  omap getAsFile (filter (λ item, kind item = "file") items).

(** The result pairs the action with whether [preventDefault()] was
    called. *)
Definition onPasteCapture (pasteLongTextToFileLen : Z) (text : string)
    (items : list ClipboardItem) : PasteAction * bool :=
  let len := Z.of_nat (String.length text) in
  if bool_decide (0 < len) && bool_decide (0 < pasteLongTextToFileLen)
     && bool_decide (pasteLongTextToFileLen < len)
  then (AddContextItem "Pasted Content" text, true)
  else
    let files := clipboardFiles items in
    if bool_decide (0 < length files)%nat then (AddFiles files, true)
    else (PasteAsUsual, false).
End ChatInput.

(** The configuration (Config.ts). *)
Module Config.
(** [THEMES]: light and dark first, then the other keys of the daisyUI theme
    object. *)
Definition THEMES (daisyuiThemes : list string) : list string :=
  ["light"; "dark"] ++
  filter (λ t, t ≠ "light" ∧ t ≠ "dark") daisyuiThemes.
End Config.

(** The model selector of the header (Header.tsx). *)
Module Header.
Record ApiModel : Type := mkApiModel {
  name : string;
  display_name : option string;
  kind : option string;
}.

(** The payload of the models endpoint after [resp.json()]: an array of
    models, an object (with [data], an array of objects with an [id], and
    with [models], each when it is an array), or anything else. *)
Inductive Payload : Type :=
  | PayloadArray (arr : list ApiModel)
  | PayloadObject (data : option (list string)) (models : option (list ApiModel))
  | PayloadOther.

(** The normalisation into [ApiModel[]]; [None] is the thrown
    'Unrecognized models payload'. *)
Definition normalize (raw : Payload) : option (list ApiModel) :=
  match raw with
  | PayloadArray arr => Some arr
  | PayloadObject (Some data) _ =>
      Some ((λ i, {| name := i; display_name := Some i;
                     kind := Some "openai" |}) <$> data)
  | PayloadObject None (Some models) => Some models
  | PayloadObject None None => None
  | PayloadOther => None
  end.

(** The state of the selector: the [models] and [selectedModel] states, the
    item stored under [SELECTED_MODEL_KEY] in [localStorage], and the details
    of the 'warriorgpt:model-changed' events dispatched so far. *)
Record State : Type := mkState {
  models : list ApiModel;
  selectedModel : string;
  storedModel : option string;
  dispatched : list string;
}.

(** [localStorage.getItem(SELECTED_MODEL_KEY) || '']. *)
Definition storedOrEmpty (st : State) : string :=
  match storedModel st with
  | Some s => s
  | None => EmptyString
  end.

(** The state at mount. *)
Definition mount (stored : option string) : State :=
  {| models := []; selectedModel := default EmptyString stored;
     storedModel := stored; dispatched := [] |}.

Definition handleChangeModel (newName : string) (st : State) : State :=
  {| models := models st; selectedModel := newName;
     storedModel := Some newName;
     dispatched := dispatched st ++ [newName] |}.

(** The effect that fetches the models once.  [resp] is the parsed payload,
    [None] when the request fails or is not ok; [cancelled] is the flag the
    cleanup sets; [selectedAtMount] is the [selectedModel] that the effect's
    closure holds.  Every failure is caught and logged. *)
Definition fetchModels (cancelled : bool) (selectedAtMount : string)
    (resp : option Payload) (st : State) : State :=
  match resp ≫= normalize with
  | None => st
  | Some arr =>
      if cancelled then st
      else
        match arr with
        | first :: _ =>
            if bool_decide (selectedAtMount = EmptyString) then
              {| models := arr; selectedModel := name first;
                 storedModel := Some (name first);
                 dispatched := dispatched st ++ [name first] |}
            else
              {| models := arr; selectedModel := selectedModel st;
                 storedModel := storedModel st; dispatched := dispatched st |}
        | [] =>
            {| models := arr; selectedModel := selectedModel st;
               storedModel := storedModel st; dispatched := dispatched st |}
        end
  end.

(** The label of an option: [m.display_name || m.name]. *)
Definition optionLabel (m : ApiModel) : string :=
  match display_name m with
  | Some d => if bool_decide (d = EmptyString) then name m else d
  | None => name m
  end.

(** One thing that happens to the selector after mount. *)
Inductive event : State → State → Prop :=
  | ev_change newName st : event st (handleChangeModel newName st)
  | ev_fetch cancelled selectedAtMount resp st :
      event st (fetchModels cancelled selectedAtMount resp st).
End Header.

(** The server information card of the chat screen ([ServerInfo]). *)
Module ServerInfo.
(** [serverProps]: the model path and the build info, the empty string
    standing for a field that is missing (the code only tests them for
    truthiness). *)
Record ServerProps : Type := mkServerProps {
  model_path : string;
  build_info : string;
}.

(** An entry of the enriched model list ([json.data]): the fields the card
    reads, each possibly missing; an argument of [runtime.args] that is not
    a string is [None]. *)
Record Model : Type := mkModel {
  name : option string;
  display_name : option string;
  runtime_args : option (list (option string));
}.

Definition isSeparator (c : ascii) : bool :=
  bool_decide (c = "/"%char ∨ c = "\"%char).

(** [s.split(/(\\|\/)/)]: the pieces between the separators, with the
    separators themselves (the capture group) in between; [cur] holds the
    piece under construction, last character first. *)
Fixpoint split_go (cur : string) (s : string) : list string :=
  match s with
  | EmptyString => [String.rev cur]
  | String c s' =>
      if isSeparator c
      then String.rev cur :: String c EmptyString :: split_go EmptyString s'
      else split_go (String c cur) s'
  end.

Definition split (s : string) : list string := split_go EmptyString s.

(** [s] with the suffix removed, when [s] ends with it. *)
Fixpoint stripSuffix (suffix s : string) : option string :=
  if decide (s = suffix) then Some EmptyString
  else match s with
       | EmptyString => None
       | String c s' => String c <$> stripSuffix suffix s'
       end.

(** [s.replace(/\.(gguf|safetensors|bin)$/, '')]. *)
Definition stripExtension (s : string) : string :=
  match stripSuffix ".gguf" s with
  | Some stem => stem
  | None =>
      match stripSuffix ".safetensors" s with
      | Some stem => stem
      | None => default s (stripSuffix ".bin" s)
      end
  end.

(** The file name stem of the model path:
    [model_path.split(...).pop()?.replace(...) || '']. *)
Definition shortName (path : string) : string :=
  default EmptyString (stripExtension <$> last (split path)).

(** [path.includes(a)]. *)
Fixpoint includes (path a : string) : bool :=
  String.prefix a path ||
  match path with
  | EmptyString => false
  | String _ path' => includes path' a
  end.

(** The predicate of [models.find], for a model path that is truthy. *)
Definition matches (short path : string) (m : Model) : bool :=
  bool_decide (name m = Some short)
  || bool_decide (display_name m = Some short)
  || match runtime_args m with
     | Some args =>
         existsb (λ a, match a with
                       | Some a' => includes path a'
                       | None => false
                       end) args
     | None => false
     end.

(** The two states of the card; a display name that is [undefined] is
    [None]. *)
Record Info : Type := mkInfo {
  displayName : option string;
  ready : bool;
}.

Definition initial : Info :=
  {| displayName := Some "Unknown"; ready := false |}.

(** What the request to the models endpoint gives: an exception (of [fetch]
    or of [resp.json()]), a response that is not ok, or the [data] of the
    parsed body. *)
Inductive Response : Type :=
  | Throws
  | NotOk
  | Ok (data : option (list Model)).

(** [match.display_name || match.name]. *)
Definition label (m : Model) : option string :=
  match display_name m with
  | Some d => if decide (d = EmptyString) then name m else Some d
  | None => name m
  end.

Definition fetchModelsAndCheck (props : ServerProps) (resp : Response)
    (st : Info) : Info :=
  match resp with
  | Throws => {| displayName := Some "Unknown"; ready := false |}
  | NotOk => st
  | Ok data =>
      let models := default [] data in
      let short := shortName (model_path props) in
      match List.find (matches short (model_path props)) models with
      | Some m =>
          {| displayName := label m;
             ready := bool_decide (build_info props ≠ EmptyString) |}
      | None =>
          {| displayName :=
               Some (if decide (short = EmptyString) then "Unknown"
                     else short);
             ready := false |}
      end
  end.

(** The effect: [if (serverProps?.model_path) fetchModelsAndCheck()]. *)
Definition effect (serverProps : option ServerProps) (resp : Response)
    (st : Info) : Info :=
  match serverProps with
  | Some props =>
      if decide (model_path props = EmptyString) then st
      else fetchModelsAndCheck props resp st
  | None => st
  end.
End ServerInfo.

(** The last character of a string. *)
Fixpoint lastChar (s : string) : option ascii :=
  match s with
  | EmptyString => None
  | String c s' =>
      match lastChar s' with
      | Some d => Some d
      | None => Some c
      end
  end.

(** No character of the string is a path separator. *)
Fixpoint noSeparator (s : string) : bool :=
  match s with
  | EmptyString => true
  | String c s' => negb (ServerInfo.isSeparator c) && noSeparator s'
  end.

(* ================================================================== *)
(** * Properties *)

(** ** The node map *)

Lemma nodeMap_snoc msgs m :
  nodeMap (msgs ++ [m]) = <[id m := m]> (nodeMap msgs).
Proof. unfold nodeMap. by rewrite foldl_app. Qed.

Lemma nodeMap_lookup_Some msgs i m :
  nodeMap msgs !! i = Some m → m ∈ msgs ∧ id m = i.
Proof.
  induction msgs as [|x msgs IH] using rev_ind; [done|].
  rewrite nodeMap_snoc, lookup_insert.
  case_decide as Hx.
  - intros [= <-]. split; [|done].
    apply elem_of_app. right. by apply list_elem_of_singleton.
  - intros [? ?]%IH. split; [|done]. apply elem_of_app. by left.
Qed.

Lemma nodeMap_size msgs : (size (nodeMap msgs) ≤ length msgs)%nat.
Proof.
  induction msgs as [|x msgs IH] using rev_ind; [done|].
  rewrite nodeMap_snoc, length_app. simpl.
  destruct (nodeMap msgs !! id x) eqn:E.
  - rewrite map_size_insert_Some by eauto. lia.
  - rewrite map_size_insert_None by done. lia.
Qed.

Lemma acyclic_by_child rank msgs i n c :
  acyclic_by rank msgs = true →
  nodeMap msgs !! i = Some n → c ∈ children n → rank i < rank c.
Proof.
  intros Hac Hn Hc. apply nodeMap_lookup_Some in Hn as [Hin <-].
  unfold acyclic_by in Hac. rewrite forallb_forall in Hac.
  apply list_elem_of_In, Hac in Hin. rewrite forallb_forall in Hin.
  apply list_elem_of_In, Hin in Hc. lia.
Qed.

(** ** The last-child descent *)

Lemma findLeafNode_sound fuel nm i l :
  findLeafNode fuel nm i = Some l → natural_leaf nm i l.
Proof.
  unfold findLeafNode. revert i.
  induction fuel as [|fuel IH]; intros i; simpl; [done|].
  destruct (nm !! i) as [n|] eqn:Hi.
  - destruct (last (children n)) as [c|] eqn:Hl.
    + intros H. eapply leaf_below; eauto.
    + intros [= <-]. apply leaf_here; [done|]. by apply last_None.
  - intros [= <-]. by apply leaf_absent.
Qed.

Lemma natural_leaf_det nm i l1 l2 :
  natural_leaf nm i l1 → natural_leaf nm i l2 → l1 = l2.
Proof.
  intros H1. revert l2.
  induction H1 as [i Hi|i n Hi Hc|i n c l Hi Hc _ IH]; intros l2 H2;
    inversion H2; simplify_eq; try done.
  - rewrite Hc in *. done.
  - rewrite H0 in *. done.
  - by apply IH.
Qed.

Lemma findLeafNode_mono fuel fuel' nm i l :
  (fuel ≤ fuel')%nat →
  findLeafNode fuel nm i = Some l → findLeafNode fuel' nm i = Some l.
Proof.
  unfold findLeafNode. revert fuel' i.
  induction fuel as [|fuel IH]; intros fuel' i Hle; simpl; [done|].
  destruct fuel' as [|fuel']; [lia|]. simpl.
  destruct (nm !! i) as [n|]; [|done].
  destruct (last (children n)) as [c|]; [|done].
  apply IH. lia.
Qed.

Lemma natural_leaf_fuel nm i l :
  natural_leaf nm i l → ∃ fuel, findLeafNode fuel nm i = Some l.
Proof.
  induction 1 as [i Hi|i n Hi Hc|i n c l Hi Hc _ [fuel IH]].
  - exists 1%nat. unfold findLeafNode. by rewrite Hi.
  - exists 1%nat. unfold findLeafNode. rewrite Hi. simpl. by rewrite Hc.
  - exists (S fuel). unfold findLeafNode in *. rewrite Hi. simpl. by rewrite Hc.
Qed.

Lemma findLeafNode_absent fuel nm i :
  nm !! i = None → findLeafNode (S fuel) nm i = Some (-1).
Proof. intros Hi. unfold findLeafNode. by rewrite Hi. Qed.

Lemma rank_above_le rank nm i : (rank_above rank nm i ≤ size nm)%nat.
Proof.
  unfold rank_above. rewrite <- (size_dom (D := gset Z) nm).
  apply subseteq_size. by intros k [_ ?]%elem_of_filter.
Qed.

Lemma rank_above_child rank nm i c :
  is_Some (nm !! i) → rank i < rank c →
  (rank_above rank nm c < rank_above rank nm i)%nat.
Proof.
  intros Hi Hlt. unfold rank_above. apply subset_size.
  apply elem_of_dom in Hi. split.
  - intros k. rewrite !elem_of_filter. intros [? ?]. split; [lia|done].
  - intros Hsub. specialize (Hsub i). rewrite !elem_of_filter in Hsub.
    destruct Hsub as [? _]; [split; [lia|done]|]. lia.
Qed.

Lemma findLeafNode_terminates rank msgs i fuel :
  acyclic_by rank msgs = true →
  (rank_above rank (nodeMap msgs) i < fuel)%nat →
  is_Some (findLeafNode fuel (nodeMap msgs) i).
Proof.
  intros Hac. unfold findLeafNode. revert i.
  induction fuel as [|fuel IH]; intros i Hlt; [lia|]. simpl.
  destruct (nodeMap msgs !! i) as [n|] eqn:Hi; [|eauto].
  destruct (last (children n)) as [c|] eqn:Hl; [|eauto].
  apply IH.
  assert (rank i < rank c).
  { eapply acyclic_by_child; eauto. by apply last_Some_elem_of. }
  assert (rank_above rank (nodeMap msgs) c < rank_above rank (nodeMap msgs) i)%nat
    by (apply rank_above_child; eauto).
  lia.
Qed.

Lemma findLeafNode_total rank msgs i fuel :
  acyclic_by rank msgs = true → (length msgs < fuel)%nat →
  is_Some (findLeafNode fuel (nodeMap msgs) i).
Proof.
  intros Hac Hlt. eapply findLeafNode_terminates; [done|].
  pose proof (rank_above_le rank (nodeMap msgs) i).
  pose proof (nodeMap_size msgs). lia.
Qed.

(** ** [indexOf] *)

Lemma indexOf_range x l : -1 ≤ indexOf x l < Z.of_nat (length l).
Proof.
  induction l as [|y l IH]; cbn [indexOf length]; [lia|].
  repeat case_decide; lia.
Qed.

Lemma indexOf_elem x l :
  x ∈ l → 0 ≤ indexOf x l ∧ l !! Z.to_nat (indexOf x l) = Some x.
Proof.
  induction l as [|y l IH]; [by intros ?%elem_of_nil|].
  intros Hin. simpl. case_decide as Hy; [by subst|].
  apply elem_of_cons in Hin as [->|Hin]; [done|].
  destruct (IH Hin) as [H0 Hl]. case_decide; [lia|].
  split; [lia|]. by replace (Z.to_nat (indexOf x l + 1)) with (S (Z.to_nat (indexOf x l))) by lia.
Qed.

Lemma indexOf_not_elem x l : x ∉ l → indexOf x l = -1.
Proof.
  induction l as [|y l IH]; [done|].
  intros [? ?]%not_elem_of_cons. simpl.
  case_decide; [congruence|]. rewrite IH by done. by case_decide.
Qed.

(** ** The display loop *)

Lemma displayStep_spec fuel nm res m out :
  displayStep fuel nm res m = Some out →
  ∃ new, out = res ++ new ∧ Forall2 (entry_of nm) (filter (shown nm) [m]) new.
Proof.
  unfold displayStep. rewrite filter_cons, filter_nil.
  destruct (nm !! parent m) as [p|] eqn:Hp.
  - case_decide as Ht.
    + destruct (mapM _ _) as [leaves|] eqn:Hm; simpl; [|done].
      intros [= <-]. eexists; split; [done|].
      rewrite decide_True by (split; [by rewrite Hp|done]).
      repeat constructor. exists p. simpl. split_and!; [done| |done].
      apply mapM_Some in Hm.
      eapply Forall2_impl; [done|]. intros ??. apply findLeafNode_sound.
    + intros [= <-]. exists []. rewrite app_nil_r.
      rewrite decide_False by (intros [_ ?]; done). by split.
  - intros [= <-]. exists []. rewrite app_nil_r.
    rewrite decide_False by (intros [[? ?] _]; congruence). by split.
Qed.

Lemma displayLoop_spec fuel nm currNodes res out :
  displayLoop fuel nm res currNodes = Some out →
  ∃ new, out = res ++ new ∧
         Forall2 (entry_of nm) (filter (shown nm) currNodes) new.
Proof.
  revert res. induction currNodes as [|m rest IH]; intros res; simpl.
  - intros [= <-]. exists []. by rewrite app_nil_r.
  - destruct (displayStep fuel nm res m) as [res'|] eqn:Hs; simpl; [|done].
    intros Hl. apply displayStep_spec in Hs as (new1 & -> & H1).
    apply IH in Hl as (new2 & -> & H2).
    exists (new1 ++ new2). rewrite <- app_assoc. split; [done|].
    change (m :: rest) with ([m] ++ rest). rewrite filter_app.
    by apply Forall2_app.
Qed.

Lemma displayLoop_total fuel nm currNodes res :
  (∀ i, is_Some (findLeafNode fuel nm i)) →
  is_Some (displayLoop fuel nm res currNodes).
Proof.
  intros Hf. revert res.
  induction currNodes as [|m rest IH]; intros res; simpl; [eauto|].
  assert (is_Some (displayStep fuel nm res m)) as [res' ->]; [|apply IH].
  unfold displayStep. destruct (nm !! parent m) as [p|]; [|eauto].
  case_decide; [|eauto].
  destruct (mapM_is_Some_2 (findLeafNode fuel nm) (children p)) as [? ->];
    [|simpl; eauto].
  apply Forall_forall. intros i _. apply Hf.
Qed.

Lemma entry_of_msgs nm l new :
  Forall2 (entry_of nm) l new → msg <$> new = l.
Proof.
  induction 1 as [|m d l new [Hm _] _ IH]; [done|]. by rewrite fmap_cons, Hm, IH.
Qed.

Lemma display_returns helper rank fuel msgs leafNodeId :
  acyclic_by rank msgs = true → (length msgs < fuel)%nat →
  is_Some (helper msgs leafNodeId true) →
  is_Some (getListMessageDisplay helper fuel msgs leafNodeId).
Proof.
  intros Hac Hlt [currNodes Hh]. unfold getListMessageDisplay.
  rewrite Hh. simpl. apply displayLoop_total.
  intros i. by eapply findLeafNode_total.
Qed.

Lemma display_entries helper fuel msgs leafNodeId res :
  getListMessageDisplay helper fuel msgs leafNodeId = Some res →
  ∃ currNodes, helper msgs leafNodeId true = Some currNodes ∧
    Forall2 (entry_of (nodeMap msgs)) (filter (shown (nodeMap msgs)) currNodes) res.
Proof.
  unfold getListMessageDisplay.
  destruct (helper msgs leafNodeId true) as [currNodes|]; simpl; [|done].
  intros (new & -> & H)%displayLoop_spec. by exists currNodes.
Qed.

(* ================================================================== *)
(** * The claims *)

(** ** C7 *)

Lemma selfChild_loops fuel : findLeafNode fuel (nodeMap selfChild) 1 = None.
Proof.
  unfold findLeafNode.
  induction fuel as [|fuel IH]; [done|].
  etrans; [|exact IH]. reflexivity.
Qed.

(** C7, counterexample: [findLeafNode] is not total on every node map.  On
    the map whose node 1 has itself as its last child the [while] loop never
    exits, whatever the number of iterations allowed. *)
Lemma findLeafNode_not_total :
  ¬ (∀ msgs i, ∃ fuel l, findLeafNode fuel (nodeMap msgs) i = Some l).
Proof.
  intros H. destruct (H selfChild 1) as (fuel & l & Hf).
  by rewrite selfChild_loops in Hf.
Qed.

Lemma lastChild_step nm i c fuel :
  lastChild nm i c → findLeafNode (S fuel) nm i = findLeafNode fuel nm c.
Proof.
  intros (n & Hn & Hl). unfold findLeafNode. rewrite Hn. simpl. by rewrite Hl.
Qed.

Lemma findLeafNode_on_cycle nm fuel j :
  tc (lastChild nm) j j → findLeafNode fuel nm j = None.
Proof.
  revert j. induction fuel as [|fuel IH]; intros j Hc; [done|].
  inversion Hc as [? ? Hstep|? c ? Hstep Hback]; subst.
  - rewrite (lastChild_step _ _ _ _ Hstep). by apply IH.
  - rewrite (lastChild_step _ _ _ _ Hstep). apply IH. by eapply tc_r.
Qed.

Lemma findLeafNode_cyclic nm i fuel :
  cyclic_from nm i → findLeafNode fuel nm i = None.
Proof.
  intros (j & Hreach & Hcyc). revert fuel.
  induction Hreach as [i|i c j Hstep _ IH]; intros fuel.
  - by apply findLeafNode_on_cycle.
  - destruct fuel as [|fuel]; [done|].
    rewrite (lastChild_step _ _ _ _ Hstep). by apply IH.
Qed.

Lemma visited_le_size (nm : gmap Z Message) (visited : list Z) :
  NoDup visited → (∀ v, v ∈ visited → is_Some (nm !! v)) →
  (length visited ≤ size nm)%nat.
Proof.
  intros Hnd Hin. rewrite <- (size_dom (D := gset Z) nm).
  rewrite <- (size_list_to_set (C := gset Z) visited) by done.
  apply subseteq_size. intros v Hv%elem_of_list_to_set.
  by apply elem_of_dom, Hin.
Qed.

(** A descent that has not ended after more loop tests than there are
    stored nodes has come back to a node it had visited. *)
Lemma findLeafNode_exhausted nm i0 fuel visited i :
  NoDup visited →
  (∀ v, v ∈ visited → is_Some (nm !! v) ∧ tc (lastChild nm) v i) →
  rtc (lastChild nm) i0 i →
  (size nm < length visited + fuel)%nat →
  findLeafNode fuel nm i = None → cyclic_from nm i0.
Proof.
  revert visited i.
  induction fuel as [|fuel IH]; intros visited i Hnd Hv Hreach Hlen Hnone.
  - pose proof (visited_le_size nm visited Hnd) as Hle.
    assert (length visited ≤ size nm)%nat by (apply Hle; intros v ?; by apply Hv).
    lia.
  - unfold findLeafNode in Hnone. simpl in Hnone.
    destruct (nm !! i) as [n|] eqn:Hi; [|done].
    destruct (last (children n)) as [c|] eqn:Hl; [|done].
    assert (lastChild nm i c) as Hstep by (by exists n).
    destruct (decide (i ∈ visited)) as [Hin|Hnin].
    + exists i. split; [done|]. by apply Hv.
    + apply (IH (i :: visited) c).
      * by constructor.
      * intros v [->|Hvin]%elem_of_cons.
        -- split; [by rewrite Hi|by apply tc_once].
        -- split; [by apply Hv|]. eapply tc_r; [by apply Hv|done].
      * by eapply rtc_r.
      * simpl. lia.
      * exact Hnone.
Qed.

Lemma findLeafNode_returns nm i :
  ¬ cyclic_from nm i →
  ∃ l, natural_leaf nm i l ∧
       ∀ fuel, (size nm < fuel)%nat → findLeafNode fuel nm i = Some l.
Proof.
  intros Hfree.
  destruct (findLeafNode (S (size nm)) nm i) as [l|] eqn:Hrun.
  - exists l. split; [by eapply findLeafNode_sound|].
    intros fuel Hlt. eapply findLeafNode_mono; [|done]. lia.
  - destruct Hfree.
    apply (findLeafNode_exhausted nm i (S (size nm)) [] i);
      [constructor|by intros v ?%elem_of_nil|done|simpl; lia|done].
Qed.

Lemma acyclic_by_no_cycle rank msgs i :
  acyclic_by rank msgs = true → ¬ cyclic_from (nodeMap msgs) i.
Proof.
  intros Hac Hcyc.
  destruct (findLeafNode_total rank msgs i (S (length msgs)) Hac) as [l Hl];
    [lia|].
  by rewrite findLeafNode_cyclic in Hl.
Qed.

(** C7, as amended: on an id that is not in the map [findLeafNode] returns
    the sentinel -1, in every node map.  For every node map and every id
    whose descent through last children does not run into a cycle, it
    returns the natural leaf under that id, within one test of the loop
    condition per stored node and one more (nothing in it throws); from an
    id whose descent runs into a cycle it never returns.  On a forest, whose
    [children] links are acyclic, no descent runs into a cycle. *)
Theorem findLeafNode_total_acyclic :
  (∀ (nm : gmap Z Message) i fuel,
     nm !! i = None → findLeafNode (S fuel) nm i = Some (-1)) ∧
  (∀ (nm : gmap Z Message) i,
     ¬ cyclic_from nm i →
     ∃ l, natural_leaf nm i l ∧
          ∀ fuel, (size nm < fuel)%nat → findLeafNode fuel nm i = Some l) ∧
  (∀ (nm : gmap Z Message) i,
     cyclic_from nm i → ∀ fuel, findLeafNode fuel nm i = None) ∧
  (∀ rank msgs i,
     acyclic_by rank msgs = true →
     ¬ cyclic_from (nodeMap msgs) i ∧
     (size (nodeMap msgs) ≤ length msgs)%nat).
Proof.
  split_and!.
  - intros nm i fuel Hi. by apply findLeafNode_absent.
  - apply findLeafNode_returns.
  - intros nm i Hcyc fuel. by apply findLeafNode_cyclic.
  - intros rank msgs i Hac. split; [by eapply acyclic_by_no_cycle|].
    apply nodeMap_size.
Qed.

Lemma findLeafNode_total_acyclic_witness :
  findLeafNode 1 (nodeMap scenario) 7 = Some (-1) ∧
  (∃ l, natural_leaf (nodeMap scenario) 0 l ∧
        ∀ fuel, (size (nodeMap scenario) < fuel)%nat →
                findLeafNode fuel (nodeMap scenario) 0 = Some l) ∧
  (∀ fuel, findLeafNode fuel (nodeMap selfChild) 1 = None).
Proof.
  destruct findLeafNode_total_acyclic as (Habsent & Hreturns & Hloops & Hforest).
  split_and!.
  - apply (Habsent (nodeMap scenario) 7 0%nat). reflexivity.
  - apply (Hreturns (nodeMap scenario) 0).
    apply (Hforest (λ i, i) scenario 0). reflexivity.
  - apply (Hloops (nodeMap selfChild) 1).
    exists 1. split; [apply rtc_refl|].
    apply tc_once. eexists. split; reflexivity.
Defined.

(** ** C6 *)

(** C6: whatever candidate path the storage helper hands over for a forest
    and a leaf id, [getListMessageDisplay] returns (it raises nothing), and
    the nodes it displays are, in the same order, the candidates that are
    not of type root and whose parent id is in the node map: a node whose
    parent is missing is left out and the rest of the path is kept. *)
Theorem orphan_excluded helper rank msgs leafNodeId currNodes fuel :
  acyclic_by rank msgs = true →
  (length msgs < fuel)%nat →
  helper msgs leafNodeId true = Some currNodes →
  ∃ res,
    getListMessageDisplay helper fuel msgs leafNodeId = Some res ∧
    msg <$> res = filter (shown (nodeMap msgs)) currNodes ∧
    ∀ m, nodeMap msgs !! parent m = None → m ∉ msg <$> res.
Proof.
  intros Hac Hlt Hh.
  destruct (display_returns helper rank fuel msgs leafNodeId) as [res Hres];
    [done|done|by rewrite Hh|].
  exists res. split; [done|].
  apply display_entries in Hres as (currNodes' & Hh' & Hent).
  assert (currNodes' = currNodes) as -> by congruence.
  apply entry_of_msgs in Hent. rewrite Hent. split; [done|].
  intros m Hm [[[? ?] _] _]%list_elem_of_filter. congruence.
Qed.

Lemma orphan_excluded_witness :
  ∃ res,
    getListMessageDisplay (StorageUtils.filterByLeafNodeId 3) 3 brokenChain 6
      = Some res ∧
    msg <$> res = filter (shown (nodeMap brokenChain)) brokenChain ∧
    ∀ m, nodeMap brokenChain !! parent m = None → m ∉ msg <$> res.
Proof.
  apply (orphan_excluded (StorageUtils.filterByLeafNodeId 3) (λ i, i)
           brokenChain 6 brokenChain 3).
  - reflexivity.
  - simpl. lia.
  - reflexivity.
Defined.

(** ** C2 *)

(** C2, counterexample: node 1 is displayed and its parent 0 is in the node
    map, but the children of 0 do not list it; its [siblingCurrIdx] is -1,
    which is no index into its (empty) [siblingLeafNodeIds]. *)
Lemma siblingCurrIdx_not_always_valid :
  ∃ res d,
    getListMessageDisplay (StorageUtils.filterByLeafNodeId 3) 3 unlisted 1
      = Some res ∧
    d ∈ res ∧ type (msg d) ≠ TRoot ∧
    is_Some (nodeMap unlisted !! parent (msg d)) ∧
    ¬ (0 ≤ siblingCurrIdx d < Z.of_nat (length (siblingLeafNodeIds d))).
Proof.
  eexists _, _. split; [reflexivity|].
  split; [apply list_elem_of_here|]. simpl.
  split; [done|]. split; [by eexists|]. lia.
Qed.

(** C2, as amended: every entry that [getListMessageDisplay] returns is a
    non-root node whose parent [p] is in the node map; its
    [siblingLeafNodeIds] holds, in child order, the natural leaf under each
    child of [p] and has the length of [p]'s children; its [siblingCurrIdx]
    is [indexOf] of its id in [p]'s children, a valid index into
    [siblingLeafNodeIds] at which the children hold that id whenever [p]
    lists the node among its children, and -1 otherwise.  On an acyclic
    forest the function returns whenever the storage helper does. *)
Theorem sibling_fields helper fuel msgs leafNodeId :
  (∀ rank, acyclic_by rank msgs = true → (length msgs < fuel)%nat →
           is_Some (helper msgs leafNodeId true) →
           is_Some (getListMessageDisplay helper fuel msgs leafNodeId)) ∧
  (∀ res d,
     getListMessageDisplay helper fuel msgs leafNodeId = Some res →
     d ∈ res →
     type (msg d) ≠ TRoot ∧
     ∃ p, nodeMap msgs !! parent (msg d) = Some p ∧
          Forall2 (natural_leaf (nodeMap msgs))
                  (children p) (siblingLeafNodeIds d) ∧
          length (siblingLeafNodeIds d) = length (children p) ∧
          siblingCurrIdx d = indexOf (id (msg d)) (children p) ∧
          (id (msg d) ∈ children p →
             0 ≤ siblingCurrIdx d < Z.of_nat (length (siblingLeafNodeIds d)) ∧
             children p !! Z.to_nat (siblingCurrIdx d) = Some (id (msg d))) ∧
          (id (msg d) ∉ children p → siblingCurrIdx d = -1)).
Proof.
  split.
  - intros rank. apply display_returns.
  - intros res d (currNodes & _ & Hent)%display_entries Hd.
    apply list_elem_of_lookup in Hd as [k Hk].
    destruct (Forall2_lookup_r _ _ _ _ _ Hent Hk) as (m & Hm & He).
    apply list_elem_of_lookup_2, list_elem_of_filter in Hm as [[_ Ht] _].
    destruct He as (<- & _ & p & Hp & Hl & Hi).
    split; [done|]. exists p. split; [done|]. split; [done|].
    pose proof (Forall2_length _ _ _ Hl) as Hlen.
    split; [done|]. split; [done|]. rewrite Hi. split.
    + intros Hin. pose proof (indexOf_range (id (msg d)) (children p)).
      destruct (indexOf_elem _ _ Hin). split; [lia|done].
    + apply indexOf_not_elem.
Qed.

Lemma sibling_fields_witness :
  is_Some (getListMessageDisplay (StorageUtils.filterByLeafNodeId 4) 4
             scenario 2) ∧
  ∃ p, nodeMap scenario !! 0 = Some p ∧
       0 ≤ 0 < Z.of_nat (length [2]) ∧
       children p !! Z.to_nat 0 = Some 1.
Proof.
  destruct (sibling_fields (StorageUtils.filterByLeafNodeId 4) 4 scenario 2)
    as [Hret Hent].
  split.
  - apply (Hret (λ i, i)); [reflexivity|simpl; lia|by eexists].
  - destruct (Hent _ userEntry eq_refl)
      as (_ & p & Hp & _ & _ & _ & Hin & _); [apply list_elem_of_here|].
    exists p. split; [exact Hp|]. apply Hin.
    injection Hp as <-. apply list_elem_of_here.
Defined.

(** ** C1 *)

Lemma StronglySorted_reverse {A} (R : relation A) (l : list A) :
  StronglySorted (flip R) l → StronglySorted R (reverse l).
Proof.
  induction 1 as [|x l _ IH Hx]; [constructor|].
  rewrite reverse_cons. apply StronglySorted_app_2; [|done|repeat constructor].
  intros a b Ha ->%list_elem_of_singleton.
  rewrite Forall_forall in Hx. apply Hx. by apply elem_of_reverse.
Qed.

Lemma StronglySorted_filter {A} (R : relation A) (P : A → Prop)
    `{!∀ x, Decision (P x)} (l : list A) :
  StronglySorted R l → StronglySorted R (filter P l).
Proof.
  induction 1 as [|x l _ IH Hx]; [constructor|].
  rewrite filter_cons. case_decide; [|done].
  constructor; [done|]. rewrite Forall_forall in Hx |- *.
  intros y [_ Hy]%list_elem_of_filter. by apply Hx.
Qed.

Lemma walkUp_spec fuel nm curr acc out :
  StorageUtils.walkUp fuel nm curr acc = Some out →
  ∃ chain, out = acc ++ chain ∧
           StronglySorted (flip (ancestor nm)) chain ∧
           ∀ b, b ∈ chain → ∃ n, curr = Some n ∧ (b = n ∨ ancestor nm b n).
Proof.
  revert curr acc. induction fuel as [|fuel IH]; intros curr acc; simpl; [done|].
  destruct curr as [n|].
  - intros (chain & -> & Hs & Hb)%IH.
    exists (n :: chain). rewrite <- app_assoc. split; [done|].
    assert (Forall (λ b, ancestor nm b n) chain) as Hall.
    { apply Forall_forall. intros b (p & Hp & Hbp)%Hb.
      assert (ancestor nm p n) by (by apply tc_once).
      destruct Hbp as [->|Hbp]; [done|]. by eapply tc_trans. }
    split; [by constructor|].
    intros b [->|Hin]%elem_of_cons; exists n; (split; [done|]); [by left|].
    right. rewrite Forall_forall in Hall. by apply Hall.
  - intros [= <-]. exists []. rewrite app_nil_r. split; [done|].
    split; [constructor|]. by intros b ?%elem_of_nil.
Qed.

Lemma parents_by_parent rank msgs i n :
  parents_by rank msgs = true →
  nodeMap msgs !! i = Some n → rank (parent n) < rank i.
Proof.
  intros Hp [Hin <-]%nodeMap_lookup_Some.
  unfold parents_by in Hp. rewrite forallb_forall in Hp.
  apply list_elem_of_In, Hp in Hin. lia.
Qed.

Lemma walkUp_terminates rank msgs i fuel acc :
  parents_by rank msgs = true →
  (rank_above (λ k, - rank k) (nodeMap msgs) i < fuel)%nat →
  is_Some (StorageUtils.walkUp fuel (nodeMap msgs) (nodeMap msgs !! i) acc).
Proof.
  intros Hp. revert i acc.
  induction fuel as [|fuel IH]; intros i acc Hlt; [lia|]. simpl.
  destruct (nodeMap msgs !! i) as [n|] eqn:Hi; [|eauto].
  apply IH.
  assert (rank (parent n) < rank i) by (by eapply parents_by_parent).
  assert (rank_above (λ k, - rank k) (nodeMap msgs) (parent n)
          < rank_above (λ k, - rank k) (nodeMap msgs) i)%nat
    by (apply rank_above_child; [eauto|lia]).
  lia.
Qed.

Lemma filterByLeafNodeId_returns rank msgs leafNodeId includeRoot fuel :
  forest_by rank msgs = true → (length msgs < fuel)%nat →
  is_Some (StorageUtils.filterByLeafNodeId fuel msgs leafNodeId includeRoot).
Proof.
  intros [Hac Hp]%andb_prop Hlt. unfold StorageUtils.filterByLeafNodeId.
  assert (is_Some (StorageUtils.resolveLeaf fuel msgs leafNodeId)) as [leaf ->].
  { unfold StorageUtils.resolveLeaf. case_decide; [|eauto].
    destruct (List.find _ msgs); [|eauto]. by eapply findLeafNode_total. }
  simpl.
  destruct (walkUp_terminates rank msgs leaf fuel [] Hp) as [collected ->];
    [|simpl; eauto].
  pose proof (rank_above_le (λ k, - rank k) (nodeMap msgs) leaf).
  pose proof (nodeMap_size msgs). lia.
Qed.

Lemma filterByLeafNodeId_sorted msgs leafNodeId includeRoot fuel currNodes :
  StorageUtils.filterByLeafNodeId fuel msgs leafNodeId includeRoot
    = Some currNodes →
  StronglySorted (ancestor (nodeMap msgs)) currNodes.
Proof.
  unfold StorageUtils.filterByLeafNodeId.
  destruct (StorageUtils.resolveLeaf fuel msgs leafNodeId) as [leaf|];
    simpl; [|done].
  destruct (StorageUtils.walkUp _ _ _ _) as [collected|] eqn:Hw; simpl; [|done].
  intros [= <-]. apply walkUp_spec in Hw as (chain & -> & Hs & _).
  apply StronglySorted_filter, StronglySorted_reverse. by rewrite app_nil_l.
Qed.

(** C1: for every message forest and every leaf id the path resolver
    returns, and the nodes it displays are in ancestor order, root side
    first: each displayed node is an ancestor, through the parent links, of
    every node displayed after it; no displayed node is of type root. *)
Theorem path_in_ancestor_order rank msgs leafNodeId fuel :
  forest_by rank msgs = true →
  (length msgs < fuel)%nat →
  ∃ res,
    getListMessageDisplay (StorageUtils.filterByLeafNodeId fuel) fuel
      msgs leafNodeId = Some res ∧
    StronglySorted (ancestor (nodeMap msgs)) (msg <$> res) ∧
    Forall (λ d, type (msg d) ≠ TRoot) res.
Proof.
  intros Hf Hlt.
  destruct (filterByLeafNodeId_returns rank msgs leafNodeId true fuel Hf Hlt)
    as [currNodes Hcurr].
  apply andb_prop in Hf as [Hac _].
  destruct (display_returns (StorageUtils.filterByLeafNodeId fuel) rank fuel
              msgs leafNodeId Hac Hlt) as [res Hres]; [by rewrite Hcurr|].
  exists res. split; [done|].
  apply display_entries in Hres as (currNodes' & Hcurr' & Hent).
  assert (currNodes' = currNodes) as -> by congruence.
  pose proof (entry_of_msgs _ _ _ Hent) as Hmsgs. split.
  - rewrite Hmsgs. apply StronglySorted_filter.
    by eapply filterByLeafNodeId_sorted.
  - apply Forall_forall. intros d Hd.
    assert (msg d ∈ msg <$> res) as Hin by (apply list_elem_of_fmap; eauto).
    rewrite Hmsgs in Hin. by apply list_elem_of_filter in Hin as [[_ ?] _].
Qed.

Lemma path_in_ancestor_order_witness :
  ∃ res,
    getListMessageDisplay (StorageUtils.filterByLeafNodeId 4) 4 scenario (-1)
      = Some res ∧
    StronglySorted (ancestor (nodeMap scenario)) (msg <$> res) ∧
    Forall (λ d, type (msg d) ≠ TRoot) res.
Proof.
  apply (path_in_ancestor_order (λ i, i) scenario (-1) 4).
  - reflexivity.
  - simpl. lia.
Defined.

(** ** C8 *)

(** C8, counterexample: resolving leaf 2 in the scenario forest displays
    user 1 and assistant 2, and neither entry has an empty sibling list. *)
Lemma scenario_sibling_lists_not_empty :
  ∃ res,
    getListMessageDisplay (StorageUtils.filterByLeafNodeId 4) 4 scenario 2
      = Some res ∧
    msg <$> res = [scenario_user; scenario_assistant] ∧
    Forall (λ d, siblingLeafNodeIds d ≠ []) res.
Proof.
  eexists. split; [reflexivity|]. split; [reflexivity|].
  by repeat constructor.
Qed.

(** C8, as amended: in the scenario forest, with the storage helper handing
    over the root-to-leaf path for leaf 2, [getListMessageDisplay] yields
    exactly the entries for user 1 and assistant 2, in this order; each has
    a sibling list of length 1, namely [2] (the leaf under the single
    child), and [siblingCurrIdx = 0]. *)
Theorem scenario_display helper (k : nat) :
  helper scenario 2 true = Some scenario →
  getListMessageDisplay helper (2 + k) scenario 2
  = Some [ {| msg := scenario_user; siblingLeafNodeIds := [2];
              siblingCurrIdx := 0; isPending := None |};
           {| msg := scenario_assistant; siblingLeafNodeIds := [2];
              siblingCurrIdx := 0; isPending := None |} ].
Proof.
  intros Hh. unfold getListMessageDisplay. rewrite Hh. reflexivity.
Qed.

Lemma scenario_display_witness :
  getListMessageDisplay (StorageUtils.filterByLeafNodeId 4) 2 scenario 2
  = Some [ {| msg := scenario_user; siblingLeafNodeIds := [2];
              siblingCurrIdx := 0; isPending := None |};
           {| msg := scenario_assistant; siblingLeafNodeIds := [2];
              siblingCurrIdx := 0; isPending := None |} ].
Proof.
  apply (scenario_display (StorageUtils.filterByLeafNodeId 4) 0).
  reflexivity.
Defined.

(** ** C9 *)

Lemma lastMsgId_snoc pre x : lastMsgId (pre ++ [x]) = Some (id (msg x)).
Proof. unfold lastMsgId. by rewrite last_snoc. Qed.

(** C9: when a pending message exists for the viewed conversation and the
    last committed entry does not carry its id, the displayed list is the
    committed path followed by exactly one entry for the pending message,
    with no sibling leaves, index 0 and [isPending] set; when the last entry
    carries its id, or no message is pending, nothing is appended.  So, as
    long as the pending id does not occur before the last committed entry,
    it is displayed exactly once. *)
Theorem pending_entry_once (pendingMessages : gmap string Message)
    (currConv : option string) (messages : list MessageDisplay) :
  let shownList := displayed (pendingMsgOf pendingMessages currConv) messages in
  (∀ p, pendingMsgOf pendingMessages currConv = Some p →
        lastMsgId messages ≠ Some (id p) →
        shownList = messages ++
          [ {| msg := p; siblingLeafNodeIds := []; siblingCurrIdx := 0;
               isPending := Some true |} ]) ∧
  (∀ p, pendingMsgOf pendingMessages currConv = Some p →
        lastMsgId messages = Some (id p) → shownList = messages) ∧
  (pendingMsgOf pendingMessages currConv = None → shownList = messages) ∧
  (∀ p, pendingMsgOf pendingMessages currConv = Some p →
        Forall (λ d, id (msg d) ≠ id p) (removelast messages) →
        length (filter (λ d, id (msg d) = id p) shownList) = 1%nat).
Proof.
  simpl. unfold displayed, pendingMsgDisplay.
  split_and!.
  - intros p -> Hne. by rewrite decide_True.
  - intros p -> He. rewrite decide_False by (intros ?; done).
    by rewrite app_nil_r.
  - intros ->. by rewrite app_nil_r.
  - intros p -> Hpre.
    destruct messages as [|x pre _] using rev_ind.
    + by rewrite decide_True, app_nil_l, filter_cons, decide_True.
    + rewrite removelast_last in Hpre. rewrite lastMsgId_snoc.
      assert (filter (λ d, id (msg d) = id p) pre = []) as Hnil.
      { induction Hpre as [|y pre Hy _ IH]; [done|].
        by rewrite filter_cons, decide_False. }
      case_decide as Hl.
      * rewrite !filter_app, Hnil, !filter_cons, filter_nil.
        rewrite decide_False by congruence. by rewrite decide_True.
      * rewrite app_nil_r, filter_app, Hnil, filter_cons, filter_nil.
        rewrite decide_True; [done|]. congruence.
Qed.

Lemma pending_entry_once_witness :
  length (displayed (pendingMsgOf pendingByConv (Some "conv-1")) committedPath)
    = 2%nat ∧
  length (filter (λ d, id (msg d) = 3)
            (displayed (pendingMsgOf pendingByConv (Some "conv-1"))
                       committedPath))
    = 1%nat.
Proof.
  destruct (pending_entry_once pendingByConv (Some "conv-1") committedPath)
    as (Happend & _ & _ & Honce).
  split.
  - rewrite (Happend _ eq_refl); [reflexivity|]. vm_compute. intros [=].
  - apply (Honce _ eq_refl). constructor.
Defined.

(** ** C10 *)

Lemma truthyIds_cons o ids :
  truthyIds (o :: ids) =
    match o with
    | Some i => if decide (i ≠ 0) then i :: truthyIds ids else truthyIds ids
    | None => truthyIds ids
    end.
Proof.
  unfold truthyIds. destruct o as [i|]; [|done]. simpl.
  by destruct (decide (i ≠ 0)).
Qed.

Lemma onChunks_run {App} (ids : list (option Z)) (s : Screen) (app : App) :
  onChunks ids (s, app) =
    (tt, ({| currNodeId := default (currNodeId s) (last (truthyIds ids));
             textareaValue := textareaValue s;
             extraItems := extraItems s;
             effects := effects s ++ (SetCurrNodeId <$> truthyIds ids) |},
          app)).
Proof.
  revert s. induction ids as [|o ids IH]; intros s.
  - destruct s. unfold truthyIds. simpl. unfold mret, Act_ret.
    by rewrite app_nil_r.
  - cbn [onChunks]. unfold mbind, Act_bind. rewrite truthyIds_cons.
    destruct o as [i|]; cbn [onChunk].
    + destruct (decide (i ≠ 0)) as [Hi|Hi].
      * unfold setCurrNodeId, perform. rewrite IH.
        cbn [currNodeId textareaValue extraItems effects].
        rewrite fmap_cons, <- app_assoc. simpl.
        destruct (truthyIds ids) as [|j l]; [done|].
        rewrite last_cons_cons.
        by destruct (proj2 (last_is_Some (j :: l))) as [x ->].
      * unfold mret, Act_ret. by rewrite IH.
    + unfold mret, Act_ret. by rewrite IH.
Qed.

(** C10: on a send that passes the guard, the draft is cleared before
    [sendMessage] is called and is set back to its prior value when
    [sendMessage] reports failure; the extra-context items are cleared after
    the attempt in either case. *)
Theorem draft_restored_items_cleared {App : Type}
    (isGenerating : App → string → bool)
    (sendMessage : option string → option Z → string → list ExtraItem →
                   App → bool * list (option Z) * App)
    (viewingChat : option ViewingChat) (messages : list MessageDisplay)
    (s : Screen) (app app' : App) (ok : bool) (ids : list (option Z)) :
  String.length (trim (textareaValue s)) ≠ 0%nat →
  isGenerating app (default EmptyString (currConvId viewingChat)) = false →
  sendMessage (currConvId viewingChat) (lastMsgId messages)
              (textareaValue s) (extraItems s) app = (ok, ids, app') →
  ∃ s',
    sendNewMessage isGenerating sendMessage viewingChat messages (s, app)
      = (tt, (s', app')) ∧
    textareaValue s' = (if ok then EmptyString else textareaValue s) ∧
    extraItems s' = [] ∧
    effects s' =
      effects s ++
      [ TextareaSetValue EmptyString; ScrollToBottom; SetCurrNodeId (-1);
        SendMessage (currConvId viewingChat) (lastMsgId messages)
                    (textareaValue s) (extraItems s) ] ++
      (SetCurrNodeId <$> truthyIds ids) ++
      (if ok then [] else [TextareaSetValue (textareaValue s)]) ++
      [ClearItems].
Proof.
  intros Hdraft Hgen Hsend.
  unfold sendNewMessage, mbind, Act_bind, textarea_value, generating.
  destruct s as [curr text items log]. cbn [textareaValue extraItems effects] in *.
  rewrite Hgen. apply Nat.eqb_neq in Hdraft. rewrite Hdraft.
  cbn [orb]. unfold textarea_setValue, scrollToBottom, setCurrNodeId,
    extraContext_items, call_sendMessage, perform, mbind, Act_bind, mret, Act_ret.
  cbn [currNodeId textareaValue extraItems effects].
  rewrite Hsend. rewrite onChunks_run.
  cbn [currNodeId textareaValue extraItems effects].
  destruct ok; cbn [unless]; unfold textarea_setValue, extraContext_clearItems,
    perform, mret, Act_ret; cbn [currNodeId textareaValue extraItems effects];
    (eexists; split; [reflexivity|]);
    cbn [currNodeId textareaValue extraItems effects];
    (split; [done|]); (split; [done|]);
    rewrite <- ?app_assoc; simpl; rewrite <- ?app_assoc; done.
Qed.

Lemma draft_restored_items_cleared_witness :
  ∃ s',
    sendNewMessage (λ (_ : unit) _, false)
                   (λ _ _ _ _ app, (false, [Some 7], app))
                   None [] (draftScreen, tt) = (tt, (s', tt)) ∧
    textareaValue s' = "draft" ∧
    extraItems s' = [] ∧
    effects s' =
      [ TextareaSetValue EmptyString; ScrollToBottom; SetCurrNodeId (-1);
        SendMessage None None "draft" (extraItems draftScreen);
        SetCurrNodeId 7; TextareaSetValue "draft"; ClearItems ].
Proof.
  apply (draft_restored_items_cleared (λ (_ : unit) _, false)
           (λ _ _ _ _ app, (false, [Some 7], app)) None [] draftScreen
           tt tt false [Some 7]).
  - vm_compute. discriminate.
  - reflexivity.
  - reflexivity.
Defined.

(** ** The generation controller *)

Lemma streamingFor_true c a :
  Generation.streamingFor c a = true ↔
  Generation.conv a = c ∧ Generation.state a = Generation.Streaming.
Proof. unfold Generation.streamingFor. apply bool_decide_eq_true. Qed.


Lemma existsb_false_find {A} (f : A → bool) (l : list A) :
  existsb f l = false → List.find f l = None.
Proof.
  induction l as [|a l IH]; [done|]. simpl.
  intros [-> Hl]%orb_false_elim. by apply IH.
Qed.

Lemma find_snoc {A} (f : A → bool) (l : list A) (a : A) :
  existsb f l = false → List.find f (l ++ [a]) = if f a then Some a else None.
Proof.
  induction l as [|b l IH]; [done|]. simpl.
  intros [-> Hl]%orb_false_elim. by apply IH.
Qed.

Lemma onStreaming_snoc c f old a :
  existsb (Generation.streamingFor c) old = false →
  Generation.onStreaming c f (old ++ [a]) =
    old ++ [if Generation.streamingFor c a then f a else a].
Proof.
  intros Hold. unfold Generation.onStreaming.
  rewrite fmap_app. f_equal.
  induction old as [|b old IH]; [done|]. simpl in Hold.
  apply orb_false_elim in Hold as [Hb Hold].
  rewrite fmap_cons, Hb. f_equal. by apply IH.
Qed.



Lemma start_inv c parentId prompt items ctl pid ctl' :
  Generation.start c parentId prompt items ctl = inr (pid, ctl') →
  Generation.isGenerating ctl c = false ∧ pid = Generation.nextId ctl ∧
  ctl' = {| Generation.store := Generation.store ctl;
            Generation.assemblers := Generation.assemblers ctl ++
              [ {| Generation.conv := c;
                   Generation.state := Generation.Streaming;
                   Generation.pending :=
                     {| id := Generation.nextId ctl; parent := parentId;
                        children := []; type := TAssistant;
                        content := None; extra := [] |} |} ];
            Generation.nextId := Generation.nextId ctl + 1 |}.
Proof.
  unfold Generation.start.
  destruct (Generation.isGenerating ctl c); [done|]. by intros [= <- <-].
Qed.






Lemma feed_snoc c deltas delta ctl :
  Generation.feed c (deltas ++ [delta]) ctl =
    let '(ids, ctl') := Generation.feed c deltas ctl in
    let '(i, ctl'') := Generation.chunk c delta ctl' in (ids ++ [i], ctl'').
Proof.
  unfold Generation.feed. rewrite foldl_app. simpl.
  by destruct (foldl _ _ deltas) as [ids ctl'].
Qed.


(** ** C4 *)







(** ** C5 *)

Lemma withContent_id m : withContent m (content m) = m.
Proof. by destruct m. Qed.

Lemma feed_started c deltas st old p nid :
  existsb (Generation.streamingFor c) old = false →
  Generation.feed c deltas
    {| Generation.store := st;
       Generation.assemblers := old ++
         [ {| Generation.conv := c; Generation.state := Generation.Streaming;
              Generation.pending := p |} ];
       Generation.nextId := nid |}
  = (replicate (length deltas) (Some (id p)),
     {| Generation.store := st;
        Generation.assemblers := old ++
          [ {| Generation.conv := c; Generation.state := Generation.Streaming;
               Generation.pending :=
                 withContent p
                   (foldl (λ acc delta,
                             Some (default EmptyString acc +:+ delta))
                          (content p) deltas) |} ];
        Generation.nextId := nid |}).
Proof.
  intros Hold. induction deltas as [|delta deltas IH] using rev_ind.
  - simpl. by rewrite withContent_id.
  - rewrite feed_snoc, IH, length_app, foldl_app. simpl.
    unfold Generation.chunk, Generation.pendingOf. simpl.
    rewrite find_snoc, onStreaming_snoc by done.
    assert (∀ q, Generation.streamingFor c
              {| Generation.conv := c;
                 Generation.state := Generation.Streaming;
                 Generation.pending := q |} = true) as Hs
      by (intros q; by apply streamingFor_true).
    rewrite Hs. simpl.
    replace (length deltas + 1)%nat with (S (length deltas)) by lia.
    by rewrite replicate_S_end.
Qed.

Lemma finish_started final c st old p nid P :
  final ≠ Generation.Streaming →
  existsb (Generation.streamingFor c) old = false →
  nodeMap (default [] (st !! c)) !! parent p = Some P →
  ∃ msgs',
    StorageUtils.appendMsg (default [] (st !! c)) (parent p) p = Some msgs' ∧
    Generation.finish final c
      {| Generation.store := st;
         Generation.assemblers := old ++
           [ {| Generation.conv := c;
                Generation.state := Generation.Streaming;
                Generation.pending := p |} ];
         Generation.nextId := nid |}
    = inr {| Generation.store := <[c := msgs']> st;
             Generation.assemblers := old ++
               [ {| Generation.conv := c; Generation.state := final;
                    Generation.pending := p |} ];
             Generation.nextId := nid |}.
Proof.
  intros Hfinal Hold HP.
  assert (Generation.streamingFor c
            {| Generation.conv := c; Generation.state := Generation.Streaming;
               Generation.pending := p |} = true) as Hs
    by by apply streamingFor_true.
  unfold Generation.finish, Generation.pendingOf, Generation.messagesOf. simpl.
  rewrite find_snoc, Hs by done. simpl.
  unfold StorageUtils.appendMsg at 1 2. rewrite HP.
  eexists. split; [done|]. by rewrite onStreaming_snoc, Hs.
Qed.

Lemma appendMsg_lookup_new msgs parentId node msgs' :
  StorageUtils.appendMsg msgs parentId node = Some msgs' →
  nodeMap msgs' !! id node = Some node.
Proof.
  unfold StorageUtils.appendMsg.
  destruct (nodeMap msgs !! parentId); [|done].
  intros [= <-]. by rewrite nodeMap_snoc, lookup_insert_eq.
Qed.

(** C5: cancelling an active stream takes the commit path: the node built so
    far is appended to the store with the content folded from the chunks
    that have arrived, exactly as a commit would do, and the pending slot is
    cleared.  After the chunks "Hel" and "lo" the committed content is
    "Hello".  A failure, in contrast, leaves the store as it was. *)
Theorem cancel_commits_partial c parentId prompt items ctl pid ctl1 deltas :
  Generation.start c parentId prompt items ctl = inr (pid, ctl1) →
  is_Some (nodeMap (Generation.messagesOf ctl c) !! parentId) →
  let ctl2 := (Generation.feed c deltas ctl1).2 in
  ∃ ctl3,
    Generation.cancel c ctl2 = inr ctl3 ∧
    nodeMap (Generation.messagesOf ctl3 c) !! pid
      = Some (withContent (reserved pid parentId) (folded deltas)) ∧
    (deltas = ["Hel"; "lo"] →
     content <$> nodeMap (Generation.messagesOf ctl3 c) !! pid
       = Some (Some "Hello")) ∧
    Generation.pendingOf ctl3 c = None ∧
    (∃ ctl3', Generation.commit c ctl2 = inr ctl3' ∧
              Generation.store ctl3' = Generation.store ctl3) ∧
    (∀ reason,
       Generation.store (Generation.fail c reason ctl2).2
       = Generation.store ctl).
Proof.
  intros (Hgen & -> & ->)%start_inv [P HP]. simpl.
  unfold Generation.isGenerating in Hgen.
  rewrite feed_started by done. simpl.
  fold (reserved (Generation.nextId ctl) parentId). fold (folded deltas).
  set (p := withContent (reserved (Generation.nextId ctl) parentId)
                        (folded deltas)).
  destruct (finish_started Generation.Cancelled c (Generation.store ctl)
              (Generation.assemblers ctl) p (Generation.nextId ctl + 1) P)
    as (msgs' & Happ & Hfin); [done|done|done|].
  destruct (finish_started Generation.Committed c (Generation.store ctl)
              (Generation.assemblers ctl) p (Generation.nextId ctl + 1) P)
    as (msgs'' & Happ' & Hfin'); [done|done|done|].
  assert (msgs'' = msgs') as -> by congruence.
  eexists. split; [exact Hfin|].
  assert (nodeMap msgs' !! Generation.nextId ctl = Some p) as Hnew
    by apply (appendMsg_lookup_new _ _ _ _ Happ).
  unfold Generation.messagesOf. simpl. rewrite lookup_insert_eq. simpl.
  split_and!.
  - done.
  - intros ->. by rewrite Hnew.
  - unfold Generation.pendingOf. simpl.
    rewrite find_snoc by done.
    destruct (Generation.streamingFor c _) eqn:Hs; [|done].
    by apply streamingFor_true in Hs as [_ ?].
  - eexists. split; [exact Hfin'|done].
  - done.
Qed.

Lemma cancel_commits_partial_witness :
  ∃ ctl3,
    Generation.cancel "conv-1"
      (Generation.feed "conv-1" ["Hel"; "lo"] busyController).2 = inr ctl3 ∧
    nodeMap (Generation.messagesOf ctl3 "conv-1") !! 3
      = Some {| id := 3; parent := 1; children := []; type := TAssistant;
                content := Some "Hello"; extra := [] |}.
Proof.
  destruct (cancel_commits_partial "conv-1" 1 None [] idleController 3
              busyController ["Hel"; "lo"]) as (ctl3 & Hc & Hn & _);
    [reflexivity|by eexists|].
  exists ctl3. split; [exact Hc|exact Hn].
Defined.

(** ** Appending to the store *)

Lemma nodeMap_fmap (g : Message → Message) msgs :
  (∀ m, id (g m) = id m) → nodeMap (g <$> msgs) = g <$> nodeMap msgs.
Proof.
  intros Hg. induction msgs as [|x msgs IH] using rev_ind.
  - unfold nodeMap. simpl. by rewrite fmap_empty.
  - rewrite fmap_app. change (g <$> [x]) with [g x].
    by rewrite !nodeMap_snoc, IH, fmap_insert, Hg.
Qed.

Lemma appendMsg_lookup msgs parentId node msgs' k :
  StorageUtils.appendMsg msgs parentId node = Some msgs' →
  nodeMap msgs' !! k =
    if decide (k = id node) then Some node
    else if decide (k = parentId)
         then StorageUtils.addChild (id node) <$> nodeMap msgs !! k
         else nodeMap msgs !! k.
Proof.
  unfold StorageUtils.appendMsg.
  destruct (nodeMap msgs !! parentId); [|done]. intros [= <-].
  rewrite nodeMap_snoc, lookup_insert.
  destruct (decide (id node = k)) as [->|Hk].
  - by rewrite decide_True.
  - rewrite decide_False by congruence.
    rewrite nodeMap_fmap by (intros x; by case_decide).
    rewrite lookup_fmap.
    destruct (nodeMap msgs !! k) as [n|] eqn:Hn; simpl; [|by case_decide].
    apply nodeMap_lookup_Some in Hn as [_ <-].
    by repeat case_decide.
Qed.

Lemma appendMsg_is_Some msgs parentId node :
  is_Some (nodeMap msgs !! parentId) →
  is_Some (StorageUtils.appendMsg msgs parentId node).
Proof. intros [P HP]. unfold StorageUtils.appendMsg. rewrite HP. eauto. Qed.

Lemma fresh_from_lookup nid msgs k n :
  fresh_from nid msgs = true → nodeMap msgs !! k = Some n →
  k < nid ∧ ∀ ch, ch ∈ children n → ch < nid.
Proof.
  intros Hf [Hin <-]%nodeMap_lookup_Some.
  unfold fresh_from in Hf. rewrite forallb_forall in Hf.
  apply list_elem_of_In, Hf, andb_prop in Hin as [Hid Hch].
  split; [lia|]. intros ch Hc. rewrite forallb_forall in Hch.
  apply list_elem_of_In, Hch in Hc. lia.
Qed.

Lemma natural_leaf_frame (nm nm' : gmap Z Message) (S : Z → Prop) i l :
  (∀ k, S k → nm' !! k = nm !! k) →
  (∀ k n c, S k → nm !! k = Some n → last (children n) = Some c → S c) →
  S i → natural_leaf nm i l → natural_leaf nm' i l.
Proof.
  intros Hagree Hclosed Hi Hleaf.
  induction Hleaf as [i Hn|i n Hn Hc|i n c l Hn Hc _ IH].
  - apply leaf_absent. by rewrite Hagree.
  - apply leaf_here; [|done]. by rewrite Hagree.
  - eapply leaf_below; [by rewrite Hagree|done|]. apply IH. eauto.
Qed.

(** Old branches survive any change of the store that leaves the nodes
    below [nid] alone, except for new children appended to [P]. *)
Lemma history_kept_intro rank nid msgs msgs' M P more :
  acyclic_by rank msgs = true →
  fresh_from nid msgs = true →
  nodeMap msgs !! id M = Some M →
  nodeMap msgs !! parent M = Some P →
  id M ∈ children P →
  (∀ k, k ≠ parent M → k < nid → nodeMap msgs' !! k = nodeMap msgs !! k) →
  (∃ P', nodeMap msgs' !! parent M = Some P' ∧
         children P' = children P ++ more) →
  history_kept msgs msgs' M P.
Proof.
  intros Hac Hfresh HM HP Hin Hagree (P' & HP' & Hch).
  assert (∀ ch, ch ∈ children P → rank (parent M) < rank ch ∧ ch < nid)
    as Hchild.
  { intros ch Hc. split; [by eapply acyclic_by_child|].
    by eapply (fresh_from_lookup nid msgs (parent M) P). }
  assert (∀ k, rank (parent M) < rank k ∧ k < nid →
               nodeMap msgs' !! k = nodeMap msgs !! k) as Hsame.
  { intros k [Hr Hk]. apply Hagree; [|done]. intros ->. lia. }
  split_and!.
  - rewrite Hsame; [done|]. by apply Hchild.
  - intros ch Hc. by apply Hsame, Hchild.
  - intros helper fuel leafNodeId res d k ch l Hres Hd Hpar Hk Hl.
    apply display_entries in Hres as (currNodes & _ & Hent).
    apply list_elem_of_lookup in Hd as [j Hj].
    destruct (Forall2_lookup_r _ _ _ _ _ Hent Hj) as (m & _ & He).
    destruct He as (<- & _ & p & Hp & Hleaves & _).
    rewrite Hpar, HP' in Hp. injection Hp as <-. rewrite Hch in Hleaves.
    apply Forall2_app_inv_l in Hleaves as (l1 & l2 & H1 & _ & ->).
    destruct (Forall2_lookup_l _ _ _ _ _ H1 Hk) as (y & Hy & Hleaf').
    rewrite lookup_app_l by (by eapply lookup_lt_Some). rewrite Hy. f_equal.
    eapply natural_leaf_det; [exact Hleaf'|].
    eapply (natural_leaf_frame _ _
              (λ k, rank (parent M) < rank k ∧ k < nid)); [done| | |done].
    + intros k' n c [Hr Hk'] Hn Hlast.
      apply last_Some_elem_of in Hlast. split.
      * pose proof (acyclic_by_child rank msgs k' n c Hac Hn Hlast). lia.
      * by eapply (fresh_from_lookup nid msgs k' n).
    + apply Hchild. by eapply list_elem_of_lookup_2.
Qed.

(** ** Edit and regenerate *)

Lemma handleEditMessage_app {App} R chat m text (s : Screen) (app : App) :
  (handleEditMessage R (Some chat) m text (s, app)).2.2
  = (R (convId chat) (parent m) (Some text) (extra m) app).2.
Proof.
  unfold handleEditMessage, call_replaceMessageAndGenerate, mbind, Act_bind,
    setCurrNodeId, scrollToBottom, perform.
  destruct (R _ _ _ _ app) as [ids app']. by rewrite onChunks_run.
Qed.

Lemma handleRegenerateMessage_app {App} R chat m (s : Screen) (app : App) :
  (handleRegenerateMessage R (Some chat) m (s, app)).2.2
  = (R (convId chat) (parent m) None (extra m) app).2.
Proof.
  unfold handleRegenerateMessage, call_replaceMessageAndGenerate, mbind,
    Act_bind, setCurrNodeId, scrollToBottom, perform.
  destruct (R _ _ _ _ app) as [ids app']. by rewrite onChunks_run.
Qed.

Lemma conclude_started e c st old p nid P msgs :
  existsb (Generation.streamingFor c) old = false →
  st !! c = Some msgs →
  nodeMap msgs !! parent p = Some P →
  ∃ msgs1,
    StorageUtils.appendMsg msgs (parent p) p = Some msgs1 ∧
    Generation.messagesOf
      (Generation.conclude c e
         {| Generation.store := st;
            Generation.assemblers := old ++
              [ {| Generation.conv := c;
                   Generation.state := Generation.Streaming;
                   Generation.pending := p |} ];
            Generation.nextId := nid |}) c
    = match e with Generation.Breaks _ => msgs | _ => msgs1 end.
Proof.
  intros Hold Hst HP.
  assert (nodeMap (default [] (st !! c)) !! parent p = Some P) as HP'
    by by rewrite Hst.
  destruct (finish_started Generation.Committed c st old p nid P)
    as (msgs1 & Happ & Hcommit); [done|done|done|].
  destruct (finish_started Generation.Cancelled c st old p nid P)
    as (msgs1' & Happ' & Hcancel); [done|done|done|].
  assert (msgs1' = msgs1) as -> by congruence.
  rewrite Hst in Happ. exists msgs1. split; [done|].
  unfold Generation.conclude, Generation.stop, Generation.commit,
    Generation.cancel, Generation.messagesOf.
  destruct e as [| |reason].
  - rewrite Hcommit. simpl. by rewrite lookup_insert_eq.
  - rewrite Hcancel. simpl. by rewrite lookup_insert_eq.
  - simpl. by rewrite Hst.
Qed.

Lemma regenerate_store deltas e c pid items ctl msgs P :
  Generation.store ctl !! c = Some msgs →
  Generation.isGenerating ctl c = false →
  nodeMap msgs !! pid = Some P →
  ∃ msgs1,
    StorageUtils.appendMsg msgs pid
      (withContent (reserved (Generation.nextId ctl) pid) (folded deltas))
      = Some msgs1 ∧
    Generation.messagesOf
      (Generation.replaceMessageAndGenerate deltas e c pid None items ctl).2 c
    = match e with Generation.Breaks _ => msgs | _ => msgs1 end.
Proof.
  intros Hst Hgen HP.
  unfold Generation.replaceMessageAndGenerate, Generation.regenerate,
    Generation.start.
  rewrite Hgen. unfold Generation.isGenerating in Hgen.
  rewrite feed_started by done. simpl.
  fold (reserved (Generation.nextId ctl) pid). fold (folded deltas).
  destruct (conclude_started e c (Generation.store ctl)
              (Generation.assemblers ctl)
              (withContent (reserved (Generation.nextId ctl) pid)
                           (folded deltas))
              (Generation.nextId ctl + 1) P msgs) as (msgs1 & Happ & Hfinal);
    [done|done|done|].
  exists msgs1. split; [exact Happ|exact Hfinal].
Qed.

Lemma edit_store deltas e c pid text items ctl msgs P :
  Generation.store ctl !! c = Some msgs →
  Generation.isGenerating ctl c = false →
  nodeMap msgs !! pid = Some P →
  let u := Generation.nextId ctl in
  let U := {| id := u; parent := pid; children := []; type := TUser;
              content := Some text; extra := items |} in
  ∃ msgs1 msgs2,
    StorageUtils.appendMsg msgs pid U = Some msgs1 ∧
    StorageUtils.appendMsg msgs1 u
      (withContent (reserved (u + 1) u) (folded deltas)) = Some msgs2 ∧
    Generation.messagesOf
      (Generation.replaceMessageAndGenerate deltas e c pid (Some text)
         items ctl).2 c
    = match e with Generation.Breaks _ => msgs1 | _ => msgs2 end.
Proof.
  intros Hst Hgen HP u U.
  destruct (appendMsg_is_Some msgs pid U) as [msgs1 Happ]; [by eexists|].
  exists msgs1.
  assert (Generation.messagesOf ctl c = msgs) as Hmsgs
    by (unfold Generation.messagesOf; by rewrite Hst).
  unfold Generation.replaceMessageAndGenerate, Generation.edit,
    Generation.start.
  rewrite Hgen, Hmsgs. fold u. fold U. rewrite Happ.
  unfold Generation.isGenerating in *. simpl. rewrite Hgen.
  rewrite feed_started by done. simpl.
  fold (reserved (u + 1) u). fold (folded deltas).
  destruct (conclude_started e c (<[c:=msgs1]> (Generation.store ctl))
              (Generation.assemblers ctl)
              (withContent (reserved (u + 1) u) (folded deltas))
              (u + 1 + 1) U msgs1) as (msgs2 & Happ2 & Hfinal);
    [done|by rewrite lookup_insert_eq
    |by apply (appendMsg_lookup_new _ _ _ _ Happ)|].
  exists msgs2. split; [done|]. split; [exact Happ2|exact Hfinal].
Qed.

Lemma appendMsg_agree nid msgs pid node msgs' k :
  StorageUtils.appendMsg msgs pid node = Some msgs' →
  nid ≤ id node → k ≠ pid → k < nid →
  nodeMap msgs' !! k = nodeMap msgs !! k.
Proof.
  intros Happ Hnid Hk Hlt. rewrite (appendMsg_lookup _ _ _ _ k Happ).
  rewrite decide_False by lia. by rewrite decide_False.
Qed.

Lemma appendMsg_parent msgs pid node msgs' P :
  StorageUtils.appendMsg msgs pid node = Some msgs' →
  nodeMap msgs !! pid = Some P → pid ≠ id node →
  nodeMap msgs' !! pid = Some (StorageUtils.addChild (id node) P).
Proof.
  intros Happ HP Hne. rewrite (appendMsg_lookup _ _ _ _ pid Happ).
  rewrite decide_False by done. rewrite decide_True by done. by rewrite HP.
Qed.

(** ** Displaying the forest after an append *)

Lemma rank_bound_gt rank msgs m :
  m ∈ msgs → rank (id m) < rank_bound rank msgs.
Proof.
  induction msgs as [|x msgs IH]; [by intros ?%elem_of_nil|].
  intros [->|Hin]%elem_of_cons; simpl; [lia|].
  specialize (IH Hin). lia.
Qed.

Lemma rerank_old rank nid msgs k :
  k < nid → rerank rank nid msgs k = rank k.
Proof. intros Hk. unfold rerank. by rewrite decide_True. Qed.

Lemma rerank_new rank nid msgs k :
  nid ≤ k → rerank rank nid msgs k = rank_bound rank msgs + (k - nid).
Proof. intros Hk. unfold rerank. rewrite decide_False; [done|lia]. Qed.

Lemma forest_by_rerank rank nid msgs0 msgs :
  fresh_from nid msgs = true → parents_below nid msgs = true →
  forest_by rank msgs = true → forest_by (rerank rank nid msgs0) msgs = true.
Proof.
  unfold fresh_from, parents_below, forest_by, acyclic_by, parents_by.
  rewrite andb_true_iff, !forallb_forall.
  intros Hfresh Hbelow [Hac Hpar]. apply andb_true_iff.
  rewrite !forallb_forall. split.
  - intros m Hm. apply forallb_forall. intros ch Hch.
    destruct (andb_prop _ _ (Hfresh m Hm)) as [Hid Hchs].
    rewrite forallb_forall in Hchs. specialize (Hchs ch Hch).
    specialize (Hac m Hm). rewrite forallb_forall in Hac.
    specialize (Hac ch Hch).
    rewrite !rerank_old by lia. done.
  - intros m Hm.
    destruct (andb_prop _ _ (Hfresh m Hm)) as [Hid _].
    specialize (Hbelow m Hm). specialize (Hpar m Hm).
    rewrite !rerank_old by lia. done.
Qed.

Lemma appendMsg_forest rank msgs pid node msgs' :
  forest_by rank msgs = true →
  children node = [] → parent node = pid → rank pid < rank (id node) →
  StorageUtils.appendMsg msgs pid node = Some msgs' →
  forest_by rank msgs' = true.
Proof.
  unfold StorageUtils.appendMsg, forest_by, acyclic_by, parents_by.
  rewrite andb_true_iff, !forallb_forall.
  intros [Hac Hpar] Hleaf Hparent Hrank.
  destruct (nodeMap msgs !! pid) as [stored|]; [|done]. intros [= <-].
  apply andb_true_iff. rewrite !forallb_forall. split.
  - intros m [Hm|Hm]%in_app_iff.
    + apply in_map_iff in Hm as (m0 & <- & Hm0).
      specialize (Hac m0 Hm0). rewrite forallb_forall in Hac.
      apply forallb_forall. case_decide as Hid; [|exact Hac].
      simpl. intros ch [Hch|Hch]%in_app_iff; [by apply Hac|].
      destruct Hch as [<-|[]]. rewrite Hid. lia.
    + destruct Hm as [<-|[]]. by rewrite Hleaf.
  - intros m [Hm|Hm]%in_app_iff.
    + apply in_map_iff in Hm as (m0 & <- & Hm0).
      specialize (Hpar m0 Hm0). by case_decide.
    + destruct Hm as [<-|[]]. rewrite Hparent. lia.
Qed.

(** The leaf under a child of [P] is the same before and after a change of
    the store that leaves the nodes below [nid] alone, [P] apart. *)
Lemma old_leaf_kept rank nid msgs msgs' pid P ch l :
  acyclic_by rank msgs = true →
  fresh_from nid msgs = true →
  nodeMap msgs !! pid = Some P →
  (∀ k, k ≠ pid → k < nid → nodeMap msgs' !! k = nodeMap msgs !! k) →
  ch ∈ children P →
  natural_leaf (nodeMap msgs) ch l → natural_leaf (nodeMap msgs') ch l.
Proof.
  intros Hac Hfresh HP Hagree Hch Hleaf.
  eapply (natural_leaf_frame _ _ (λ k, rank pid < rank k ∧ k < nid));
    [| | |done].
  - intros k [Hr Hk]. apply Hagree; [|done]. intros ->. lia.
  - intros k n c [Hr Hk] Hn Hlast.
    apply last_Some_elem_of in Hlast. split.
    + pose proof (acyclic_by_child rank msgs k n c Hac Hn Hlast). lia.
    + by eapply (fresh_from_lookup nid msgs k n).
  - split; [by eapply acyclic_by_child|].
    by eapply (fresh_from_lookup nid msgs pid P).
Qed.

Lemma Forall2_impl_elem {A B} (R R' : A → B → Prop) l k :
  Forall2 R l k → (∀ x y, x ∈ l → R x y → R' x y) → Forall2 R' l k.
Proof.
  induction 1 as [|x y l k Hxy _ IH]; intros Himpl; constructor.
  - apply Himpl; [apply list_elem_of_here|done].
  - apply IH. intros x' y' Hin. apply Himpl. by apply list_elem_of_further.
Qed.

Lemma filterByLeafNodeId_start fuel msgs L X currNodes :
  L ≠ -1 → nodeMap msgs !! L = Some X →
  StorageUtils.filterByLeafNodeId fuel msgs L true = Some currNodes →
  X ∈ currNodes.
Proof.
  intros HL HX. unfold StorageUtils.filterByLeafNodeId, StorageUtils.resolveLeaf.
  rewrite decide_False by done. simpl. rewrite HX.
  destruct fuel as [|fuel]; [done|]. simpl.
  destruct (StorageUtils.walkUp _ _ _ _) as [collected|] eqn:Hw; [|done].
  simpl. intros [= <-].
  apply walkUp_spec in Hw as (chain & -> & _).
  apply list_elem_of_filter. split; [by right|].
  apply elem_of_reverse, elem_of_app. left. apply list_elem_of_here.
Qed.

Lemma branches_listed_intro rank rank' nid msgs msgs' pid P more fuel L X :
  acyclic_by rank msgs = true →
  fresh_from nid msgs = true →
  nodeMap msgs !! pid = Some P →
  (∀ k, k ≠ pid → k < nid → nodeMap msgs' !! k = nodeMap msgs !! k) →
  (∃ P', nodeMap msgs' !! pid = Some P' ∧ children P' = children P ++ more) →
  forest_by rank' msgs' = true → (length msgs' < fuel)%nat →
  nodeMap msgs' !! L = Some X → parent X = pid → type X ≠ TRoot → L ≠ -1 →
  branches_listed fuel msgs msgs' P L.
Proof.
  intros Hac Hfresh HP Hagree (P' & HP' & Hch) Hforest Hlen HX Hpar Htype HL.
  destruct (filterByLeafNodeId_returns rank' msgs' L true fuel Hforest Hlen)
    as [currNodes Hcurr].
  pose proof (filterByLeafNodeId_start _ _ _ _ _ HL HX Hcurr) as Hin.
  apply andb_prop in Hforest as [Hac' _].
  destruct (display_returns (StorageUtils.filterByLeafNodeId fuel) rank' fuel
              msgs' L Hac' Hlen) as [res Hres]; [by rewrite Hcurr|].
  pose proof Hres as Hent.
  apply display_entries in Hent as (currNodes' & Hcurr' & Hent).
  assert (currNodes' = currNodes) as -> by congruence.
  assert (X ∈ filter (shown (nodeMap msgs')) currNodes) as Hshown.
  { apply list_elem_of_filter. split; [|done].
    split; [|done]. rewrite Hpar, HP'. by eexists. }
  apply list_elem_of_lookup in Hshown as [j Hj].
  destruct (Forall2_lookup_l _ _ _ _ _ Hent Hj) as (d & Hd & He).
  destruct He as (Hmsg & _ & p & Hp & Hleaves & _).
  rewrite Hpar, HP' in Hp. injection Hp as <-. rewrite Hch in Hleaves.
  apply Forall2_app_inv_l in Hleaves as (leaves & new & Hold & _ & Hsib).
  exists res, d, leaves, new. split; [done|].
  split; [by eapply list_elem_of_lookup_2|].
  split; [by rewrite Hmsg|]. split; [|done].
  eapply Forall2_impl_elem; [exact Hold|]. intros ch l Hin' Hl'.
  destruct (findLeafNode_total rank msgs ch (S (length msgs)) Hac)
    as [l0 Hl0]; [lia|].
  apply findLeafNode_sound in Hl0.
  assert (natural_leaf (nodeMap msgs') ch l0) as Hl0'
    by (by apply (old_leaf_kept rank nid msgs msgs' pid P ch l0)).
  by rewrite (natural_leaf_det _ _ _ _ Hl' Hl0').
Qed.

(** ** C3 *)

Lemma append_sibling_forest rank nid msgs pid P node msgs1 :
  forest_by rank msgs = true →
  fresh_from nid msgs = true → parents_below nid msgs = true →
  nodeMap msgs !! pid = Some P →
  id node = nid → children node = [] → parent node = pid →
  StorageUtils.appendMsg msgs pid node = Some msgs1 →
  forest_by (rerank rank nid msgs) msgs1 = true.
Proof.
  intros Hforest Hfresh Hbelow HP Hid Hleaf Hparent Happ.
  eapply appendMsg_forest; [by apply forest_by_rerank|done|done| |done].
  destruct (fresh_from_lookup nid msgs pid P Hfresh HP) as [Hlt _].
  apply nodeMap_lookup_Some in HP as [HPin HPid].
  apply (rank_bound_gt rank) in HPin. rewrite HPid in HPin.
  rewrite rerank_old by done. rewrite rerank_new by lia. lia.
Qed.

Lemma stored_apart rank nid msgs M P :
  acyclic_by rank msgs = true → fresh_from nid msgs = true →
  nodeMap msgs !! id M = Some M → nodeMap msgs !! parent M = Some P →
  id M ∈ children P →
  id M ≠ parent M ∧ id M < nid ∧ parent M < nid.
Proof.
  intros Hac Hfresh HM HP Hin.
  pose proof (acyclic_by_child rank msgs (parent M) P (id M) Hac HP Hin).
  destruct (fresh_from_lookup nid msgs (id M) M Hfresh HM) as [? _].
  destruct (fresh_from_lookup nid msgs (parent M) P Hfresh HP) as [? _].
  split; [|done]. intros Heq. rewrite Heq in *. lia.
Qed.

Lemma edit_listed rank deltas ending c ctl msgs M P newContent s fuel :
  Generation.store ctl !! c = Some msgs →
  Generation.isGenerating ctl c = false →
  acyclic_by rank msgs = true →
  fresh_from (Generation.nextId ctl) msgs = true →
  nodeMap msgs !! id M = Some M →
  nodeMap msgs !! parent M = Some P →
  id M ∈ children P →
  parents_by rank msgs = true →
  parents_below (Generation.nextId ctl) msgs = true →
  type M ≠ TRoot → id M ≠ -1 → Generation.nextId ctl ≠ -1 →
  let msgs' :=
    Generation.messagesOf
      (handleEditMessage (Generation.replaceMessageAndGenerate deltas ending)
         (Some {| convId := c; messages := msgs |}) M newContent
         (s, ctl)).2.2 c in
  (length msgs' < fuel)%nat →
  branches_listed fuel msgs msgs' P (id M) ∧
  branches_listed fuel msgs msgs' P (Generation.nextId ctl).
Proof.
  intros Hst Hgen Hac Hfresh HM HP Hin Hpar Hbelow HtM HidM Hu msgs'.
  subst msgs'. rewrite handleEditMessage_app. simpl.
  set (u := Generation.nextId ctl) in *.
  destruct (stored_apart rank u msgs M P Hac Hfresh HM HP Hin)
    as (Hne & HMu & HPu).
  destruct (edit_store deltas ending c (parent M) newContent (extra M)
              ctl msgs P Hst Hgen HP) as (msgs1 & msgs2 & H1 & H2 & ->).
  fold u in H1, H2.
  pose proof (appendMsg_parent _ _ _ _ P H1 HP) as HP1. simpl in HP1.
  pose proof (appendMsg_lookup_new _ _ _ _ H1) as HU1. simpl in HU1.
  assert (∀ k, k ≠ parent M → k < u →
               nodeMap msgs1 !! k = nodeMap msgs !! k) as Hag1.
  { intros k ??. by apply (appendMsg_agree u _ _ _ _ k H1). }
  assert (∀ k, k ≠ parent M → k < u →
               nodeMap msgs2 !! k = nodeMap msgs !! k) as Hag2.
  { intros k ??. rewrite (appendMsg_lookup _ _ _ _ k H2). simpl.
    rewrite !decide_False by lia. by apply Hag1. }
  assert (nodeMap msgs2 !! parent M
          = Some (StorageUtils.addChild u P)) as HP2.
  { rewrite (appendMsg_lookup _ _ _ _ (parent M) H2). simpl.
    rewrite !decide_False by lia. apply HP1. lia. }
  assert (∃ U, nodeMap msgs2 !! u = Some U ∧ parent U = parent M ∧
               type U = TUser) as (U2 & HU2 & HU2p & HU2t).
  { rewrite (appendMsg_lookup _ _ _ _ u H2). simpl.
    rewrite decide_False by lia. rewrite decide_True by done.
    rewrite HU1. simpl. eauto. }
  assert (forest_by rank msgs = true) as Hforest
    by (by apply andb_true_iff).
  assert (forest_by (rerank rank u msgs) msgs1 = true) as Hf1.
  { by refine (append_sibling_forest rank u msgs (parent M) P _ msgs1
                 Hforest Hfresh Hbelow HP _ _ _ H1). }
  assert (forest_by (rerank rank u msgs) msgs2 = true) as Hf2.
  { refine (appendMsg_forest _ msgs1 u _ msgs2 Hf1 _ _ _ H2); [done|done|].
    simpl. rewrite !rerank_new by lia. lia. }
  assert (∃ P', nodeMap msgs1 !! parent M = Some P' ∧
                children P' = children P ++ [u]) as Hkids1.
  { exists (StorageUtils.addChild u P). split; [apply HP1; lia|done]. }
  assert (∃ P', nodeMap msgs2 !! parent M = Some P' ∧
                children P' = children P ++ [u]) as Hkids2.
  { exists (StorageUtils.addChild u P). by split. }
  intros Hlen.
  destruct ending as [| |reason]; split.
  - apply (branches_listed_intro rank (rerank rank u msgs) u msgs msgs2
             (parent M) P [u] fuel (id M) M); try done.
    rewrite Hag2 by done. done.
  - apply (branches_listed_intro rank (rerank rank u msgs) u msgs msgs2
             (parent M) P [u] fuel u U2); try done.
    by rewrite HU2t.
  - apply (branches_listed_intro rank (rerank rank u msgs) u msgs msgs2
             (parent M) P [u] fuel (id M) M); try done.
    rewrite Hag2 by done. done.
  - apply (branches_listed_intro rank (rerank rank u msgs) u msgs msgs2
             (parent M) P [u] fuel u U2); try done.
    by rewrite HU2t.
  - apply (branches_listed_intro rank (rerank rank u msgs) u msgs msgs1
             (parent M) P [u] fuel (id M) M); try done.
    rewrite Hag1 by done. done.
  - by apply (branches_listed_intro rank (rerank rank u msgs) u msgs msgs1
                (parent M) P [u] fuel u
                {| id := u; parent := parent M; children := [];
                   type := TUser; content := Some newContent;
                   extra := extra M |}).
Qed.

Lemma regenerate_listed rank deltas ending c ctl msgs M P s fuel :
  Generation.store ctl !! c = Some msgs →
  Generation.isGenerating ctl c = false →
  acyclic_by rank msgs = true →
  fresh_from (Generation.nextId ctl) msgs = true →
  nodeMap msgs !! id M = Some M →
  nodeMap msgs !! parent M = Some P →
  id M ∈ children P →
  parents_by rank msgs = true →
  parents_below (Generation.nextId ctl) msgs = true →
  type M ≠ TRoot → id M ≠ -1 → Generation.nextId ctl ≠ -1 →
  let msgs' :=
    Generation.messagesOf
      (handleRegenerateMessage
         (Generation.replaceMessageAndGenerate deltas ending)
         (Some {| convId := c; messages := msgs |}) M (s, ctl)).2.2 c in
  (length msgs' < fuel)%nat →
  branches_listed fuel msgs msgs' P (id M) ∧
  match ending with
  | Generation.Breaks _ => msgs' = msgs
  | _ => branches_listed fuel msgs msgs' P (Generation.nextId ctl)
  end.
Proof.
  intros Hst Hgen Hac Hfresh HM HP Hin Hpar Hbelow HtM HidM Hu msgs'.
  subst msgs'. rewrite handleRegenerateMessage_app. simpl.
  set (u := Generation.nextId ctl) in *.
  destruct (stored_apart rank u msgs M P Hac Hfresh HM HP Hin)
    as (Hne & HMu & HPu).
  destruct (regenerate_store deltas ending c (parent M) (extra M)
              ctl msgs P Hst Hgen HP) as (msgs1 & H1 & ->).
  fold u in H1.
  pose proof (appendMsg_parent _ _ _ _ P H1 HP) as HP1. simpl in HP1.
  pose proof (appendMsg_lookup_new _ _ _ _ H1) as HU1. simpl in HU1.
  assert (∀ k, k ≠ parent M → k < u →
               nodeMap msgs1 !! k = nodeMap msgs !! k) as Hag1.
  { intros k ??. by apply (appendMsg_agree u _ _ _ _ k H1). }
  assert (forest_by rank msgs = true) as Hforest
    by (by apply andb_true_iff).
  assert (forest_by (rerank rank u msgs) msgs1 = true) as Hf1.
  { by refine (append_sibling_forest rank u msgs (parent M) P _ msgs1
                 Hforest Hfresh Hbelow HP _ _ _ H1). }
  assert (∃ P', nodeMap msgs1 !! parent M = Some P' ∧
                children P' = children P ++ [u]) as Hkids1.
  { exists (StorageUtils.addChild u P). split; [apply HP1; lia|done]. }
  intros Hlen.
  destruct ending as [| |reason]; split; try done.
  - apply (branches_listed_intro rank (rerank rank u msgs) u msgs msgs1
             (parent M) P [u] fuel (id M) M); try done.
    rewrite Hag1 by done. done.
  - by apply (branches_listed_intro rank (rerank rank u msgs) u msgs msgs1
                (parent M) P [u] fuel u
                (withContent (reserved u (parent M)) (folded deltas))).
  - apply (branches_listed_intro rank (rerank rank u msgs) u msgs msgs1
             (parent M) P [u] fuel (id M) M); try done.
    rewrite Hag1 by done. done.
  - by apply (branches_listed_intro rank (rerank rank u msgs) u msgs msgs1
                (parent M) P [u] fuel u
                (withContent (reserved u (parent M)) (folded deltas))).
  - apply (branches_listed_intro rank rank u msgs msgs
             (parent M) P [] fuel (id M) M); try done.
    exists P. by rewrite app_nil_r.
Qed.

(** C3: editing a message [M] through [handleEditMessage] stores a new
    user node with the new content as a further child of [M]'s parent [P],
    appended to [P]'s children; regenerating [M] through
    [handleRegenerateMessage] appends the generated assistant node to [P]'s
    children once the stream completes or is stopped (a stream that breaks
    leaves the forest as it was).  In both operations, and however the
    stream ends, [M] and every existing child of [P] stay in the forest
    unmodified, and every display of the new forest lists, for the entries
    under [P], the leaves of the old branches in [siblingLeafNodeIds].
    Such displays exist: when [M] is not the root and the parent links of
    the forest are acyclic and name no id still to be assigned, the path
    resolver returns both with the view pointed at [M] and with the view
    pointed at the new sibling, and the entry it displays for that node
    lists the leaf of every old branch, in child order, before the new
    one. *)
Theorem edit_regenerate_keep_history rank deltas ending c ctl msgs M P
    newContent s :
  Generation.store ctl !! c = Some msgs →
  Generation.isGenerating ctl c = false →
  acyclic_by rank msgs = true →
  fresh_from (Generation.nextId ctl) msgs = true →
  nodeMap msgs !! id M = Some M →
  nodeMap msgs !! parent M = Some P →
  id M ∈ children P →
  let chat := Some {| convId := c; messages := msgs |} in
  let R := Generation.replaceMessageAndGenerate deltas ending in
  let u := Generation.nextId ctl in
  let edited :=
    Generation.messagesOf
      (handleEditMessage R chat M newContent (s, ctl)).2.2 c in
  let regenerated :=
    Generation.messagesOf (handleRegenerateMessage R chat M (s, ctl)).2.2 c in
  (history_kept msgs edited M P ∧
   (∃ P', nodeMap edited !! parent M = Some P' ∧
          children P' = children P ++ [u]) ∧
   (∃ U, nodeMap edited !! u = Some U ∧ parent U = parent M ∧
         type U = TUser ∧ content U = Some newContent ∧
         extra U = extra M)) ∧
  (history_kept msgs regenerated M P ∧
   match ending with
   | Generation.Breaks _ => regenerated = msgs
   | _ =>
       nodeMap regenerated !! parent M = Some (StorageUtils.addChild u P) ∧
       nodeMap regenerated !! u
         = Some (withContent (reserved u (parent M)) (folded deltas))
   end) ∧
  (parents_by rank msgs = true → parents_below u msgs = true →
   type M ≠ TRoot → id M ≠ -1 → u ≠ -1 →
   (∀ fuel, (length edited < fuel)%nat →
      branches_listed fuel msgs edited P (id M) ∧
      branches_listed fuel msgs edited P u) ∧
   (∀ fuel, (length regenerated < fuel)%nat →
      branches_listed fuel msgs regenerated P (id M) ∧
      match ending with
      | Generation.Breaks _ => regenerated = msgs
      | _ => branches_listed fuel msgs regenerated P u
      end)).
Proof.
  intros Hst Hgen Hac Hfresh HM HP Hin chat R u edited regenerated.
  assert (parent M < u) as Hpu
    by (by destruct (fresh_from_lookup u msgs (parent M) P Hfresh HP)).
  split; [|split].
  - subst edited chat R.
    rewrite handleEditMessage_app. simpl.
    destruct (edit_store deltas ending c (parent M) newContent (extra M)
                ctl msgs P Hst Hgen HP) as (msgs1 & msgs2 & H1 & H2 & ->).
    fold u in H1, H2.
    pose proof (appendMsg_parent _ _ _ _ P H1 HP) as HP1. simpl in HP1.
    pose proof (appendMsg_lookup_new _ _ _ _ H1) as HU1. simpl in HU1.
    assert (∀ k, k ≠ parent M → k < u →
                 nodeMap msgs1 !! k = nodeMap msgs !! k) as Hag1.
    { intros k ??. by apply (appendMsg_agree u _ _ _ _ k H1). }
    assert (∀ k, k ≠ parent M → k < u →
                 nodeMap msgs2 !! k = nodeMap msgs !! k) as Hag2.
    { intros k ??. rewrite (appendMsg_lookup _ _ _ _ k H2). simpl.
      rewrite !decide_False by lia. by apply Hag1. }
    assert (nodeMap msgs2 !! parent M
            = Some (StorageUtils.addChild u P)) as HP2.
    { rewrite (appendMsg_lookup _ _ _ _ (parent M) H2). simpl.
      rewrite !decide_False by lia. apply HP1. lia. }
    assert (∃ U, nodeMap msgs2 !! u = Some U ∧ parent U = parent M ∧
                 type U = TUser ∧ content U = Some newContent ∧
                 extra U = extra M) as HU2.
    { rewrite (appendMsg_lookup _ _ _ _ u H2). simpl.
      rewrite decide_False by lia. rewrite decide_True by done.
      rewrite HU1. simpl. eauto 10. }
    destruct ending as [| |reason].
    + split_and!; [|eauto|done].
      eapply (history_kept_intro rank u); eauto.
    + split_and!; [|eauto|done].
      eapply (history_kept_intro rank u); eauto.
    + split_and!; [|exists (StorageUtils.addChild u P); split; [apply HP1; lia|done]
                   |eauto 10].
      eapply (history_kept_intro rank u); eauto.
      exists (StorageUtils.addChild u P). split; [apply HP1; lia|done].
  - subst regenerated chat R.
    rewrite handleRegenerateMessage_app. simpl.
    destruct (regenerate_store deltas ending c (parent M) (extra M)
                ctl msgs P Hst Hgen HP) as (msgs1 & H1 & ->).
    fold u in H1.
    pose proof (appendMsg_parent _ _ _ _ P H1 HP) as HP1. simpl in HP1.
    pose proof (appendMsg_lookup_new _ _ _ _ H1) as HU1. simpl in HU1.
    assert (history_kept msgs msgs1 M P) as Hkept.
    { eapply (history_kept_intro rank u); eauto.
      - intros k ??. by apply (appendMsg_agree u _ _ _ _ k H1).
      - exists (StorageUtils.addChild u P). split; [apply HP1; lia|done]. }
    destruct ending as [| |reason].
    + split; [done|]. split; [apply HP1; lia|done].
    + split; [done|]. split; [apply HP1; lia|done].
    + split; [|done].
      eapply (history_kept_intro rank u _ _ _ _ []); eauto.
      exists P. by rewrite app_nil_r.
  - intros Hpar Hbelow HtM HidM Hu. split; intros fuel Hlen.
    + by apply (edit_listed rank deltas ending c ctl msgs M P newContent s).
    + by apply (regenerate_listed rank deltas ending c ctl msgs M P s).
Qed.

Lemma edit_regenerate_keep_history_witness :
  history_kept scenario
    (Generation.messagesOf
       (handleEditMessage
          (Generation.replaceMessageAndGenerate ["Hel"; "lo"]
             Generation.Completes)
          viewingScenario scenario_assistant "rephrased"
          (restingScreen, idleController)).2.2 "conv-1")
    scenario_assistant scenario_user ∧
  nodeMap
    (Generation.messagesOf
       (handleRegenerateMessage
          (Generation.replaceMessageAndGenerate ["Hel"; "lo"]
             Generation.Completes)
          viewingScenario scenario_assistant
          (restingScreen, idleController)).2.2 "conv-1") !! 1
  = Some (StorageUtils.addChild 3 scenario_user) ∧
  branches_listed 5 scenario
    (Generation.messagesOf
       (handleRegenerateMessage
          (Generation.replaceMessageAndGenerate ["Hel"; "lo"]
             Generation.Completes)
          viewingScenario scenario_assistant
          (restingScreen, idleController)).2.2 "conv-1")
    scenario_user 3.
Proof.
  destruct (edit_regenerate_keep_history (λ i, i) ["Hel"; "lo"]
              Generation.Completes "conv-1" idleController scenario
              scenario_assistant scenario_user "rephrased" restingScreen)
    as ([Hedit _] & [_ [Hparent _]] & Hlisted).
  - reflexivity.
  - reflexivity.
  - reflexivity.
  - reflexivity.
  - reflexivity.
  - reflexivity.
  - simpl. apply list_elem_of_here.
  - split; [exact Hedit|]. split; [exact Hparent|].
    destruct Hlisted as [_ Hregen].
    + reflexivity.
    + reflexivity.
    + vm_compute. discriminate.
    + vm_compute. discriminate.
    + vm_compute. discriminate.
    + apply (Hregen 5%nat). vm_compute. lia.
Defined.

(* ================================================================== *)
(** * Further properties of the code *)

(** ** The node map and the descent *)

(** X1: the node map holds, for every id, the last message of the array
    with that id ([Map.set] overwrites), and nothing for an id that no
    message has. *)
Theorem nodeMap_last_wins msgs i :
  nodeMap msgs !! i = last (filter (λ m, id m = i) msgs).
Proof.
  induction msgs as [|x msgs IH] using rev_ind; [done|].
  rewrite nodeMap_snoc, lookup_insert, filter_app, filter_cons, filter_nil.
  destruct (decide (id x = i)) as [Hx|Hx].
  - by rewrite last_snoc.
  - by rewrite app_nil_r.
Qed.

Lemma natural_leaf_stored msgs i l :
  natural_leaf (nodeMap msgs) i l →
  l = -1 ∨ ∃ n, nodeMap msgs !! l = Some n ∧ children n = [].
Proof.
  induction 1 as [i Hi|i n Hi Hc|i n c l Hi Hc _ IH]; [by left| |done].
  right. exists n. split; [|done].
  by destruct (nodeMap_lookup_Some _ _ _ Hi) as [_ ->].
Qed.

(** X2: whatever [findLeafNode] returns is the sentinel -1 or the id of a
    stored node without children. *)
Theorem findLeafNode_returns_leaf fuel msgs i l :
  findLeafNode fuel (nodeMap msgs) i = Some l →
  l = -1 ∨ ∃ n, nodeMap msgs !! l = Some n ∧ id n = l ∧ children n = [].
Proof.
  intros Hl%findLeafNode_sound%natural_leaf_stored.
  destruct Hl as [->|(n & Hn & Hc)]; [by left|].
  right. exists n. split; [done|]. split; [|done].
  by destruct (nodeMap_lookup_Some _ _ _ Hn).
Qed.

Lemma findLeafNode_returns_leaf_witness :
  2 = -1 ∨ ∃ n, nodeMap scenario !! 2 = Some n ∧ id n = 2 ∧ children n = [].
Proof.
  apply (findLeafNode_returns_leaf 3 scenario 0 2). reflexivity.
Defined.

(** X3: [findLeafNode] is idempotent when -1 is not the id of a message:
    the leaf it returns for an id is its own leaf. *)
Theorem findLeafNode_idempotent fuel msgs i l :
  nodeMap msgs !! (-1) = None →
  findLeafNode fuel (nodeMap msgs) i = Some l →
  findLeafNode fuel (nodeMap msgs) l = Some l.
Proof.
  intros Hsent Hl.
  destruct fuel as [|fuel]; [done|].
  apply findLeafNode_sound, natural_leaf_stored in Hl
    as [->|(n & Hn & Hc)]; unfold findLeafNode.
  - by rewrite Hsent.
  - rewrite Hn. simpl. rewrite Hc. simpl.
    by destruct (nodeMap_lookup_Some _ _ _ Hn) as [_ ->].
Qed.

Lemma findLeafNode_idempotent_witness :
  findLeafNode 3 (nodeMap scenario) 2 = Some 2.
Proof.
  apply (findLeafNode_idempotent 3 scenario 0 2); reflexivity.
Defined.

(** ** The displayed entries *)

(** X4: in every entry that [getListMessageDisplay] returns, [isPending] is
    left undefined, and when the parent lists the node among its children,
    [siblingLeafNodeIds[siblingCurrIdx]] is the natural leaf under the
    displayed node itself. *)
Theorem current_sibling_is_own_branch helper fuel msgs leafNodeId res d :
  getListMessageDisplay helper fuel msgs leafNodeId = Some res →
  d ∈ res →
  isPending d = None ∧
  ∀ p, nodeMap msgs !! parent (msg d) = Some p →
       id (msg d) ∈ children p →
       ∃ l, siblingLeafNodeIds d !! Z.to_nat (siblingCurrIdx d) = Some l ∧
            natural_leaf (nodeMap msgs) (id (msg d)) l.
Proof.
  intros (currNodes & _ & Hent)%display_entries Hd.
  apply list_elem_of_lookup in Hd as [k Hk].
  destruct (Forall2_lookup_r _ _ _ _ _ Hent Hk) as (m & _ & He).
  destruct He as (<- & Hpend & p & Hp & Hl & Hi).
  split; [done|]. intros p' Hp' Hin.
  assert (p' = p) as -> by congruence.
  destruct (indexOf_elem _ _ Hin) as [_ Hat]. rewrite Hi.
  destruct (Forall2_lookup_l _ _ _ _ _ Hl Hat) as (l & Hl1 & Hl2). eauto.
Qed.

Lemma current_sibling_is_own_branch_witness :
  isPending userEntry = None ∧
  ∀ p, nodeMap scenario !! parent (msg userEntry) = Some p →
       id (msg userEntry) ∈ children p →
       ∃ l, siblingLeafNodeIds userEntry
              !! Z.to_nat (siblingCurrIdx userEntry) = Some l ∧
            natural_leaf (nodeMap scenario) (id (msg userEntry)) l.
Proof.
  apply (current_sibling_is_own_branch (StorageUtils.filterByLeafNodeId 4) 4
           scenario 2 _ userEntry eq_refl).
  apply list_elem_of_here.
Defined.

Lemma displayLoop_no_parent fuel nm currNodes res :
  Forall (λ m, nm !! parent m = None) currNodes →
  displayLoop fuel nm res currNodes = Some res.
Proof.
  induction 1 as [|m rest Hm _ IH]; [done|].
  simpl. unfold displayStep. by rewrite Hm.
Qed.

(** X5: without a viewed chat, and for a chat without messages (whatever
    candidates the storage helper returns), nothing committed is displayed,
    for any fuel; a pending message is then the only entry rendered. *)
Theorem empty_chat_displays_pending_only helper fuel currNode viewingChat :
  (viewingChat = None ∨
   ∃ chat, viewingChat = Some chat ∧ messages chat = [] ∧
           is_Some (helper [] currNode true)) →
  screenMessages helper fuel viewingChat currNode = Some [] ∧
  ∀ p, displayed (Some p) [] =
       [ {| msg := p; siblingLeafNodeIds := []; siblingCurrIdx := 0;
            isPending := Some true |} ].
Proof.
  intros Hchat. split; [|done].
  destruct Hchat as [->|(chat & -> & Hm & [cands Hc])]; [done|].
  unfold screenMessages, getListMessageDisplay. rewrite Hm, Hc. simpl.
  apply displayLoop_no_parent, Forall_forall. intros m _.
  apply lookup_empty.
Qed.

Lemma empty_chat_displays_pending_only_witness :
  screenMessages (StorageUtils.filterByLeafNodeId 1) 0
    (Some {| convId := "conv-2"; messages := [] |}) (-1) = Some [].
Proof.
  apply (empty_chat_displays_pending_only (StorageUtils.filterByLeafNodeId 1)
           0 (-1) (Some {| convId := "conv-2"; messages := [] |})).
  right. eexists. split; [reflexivity|]. split; [reflexivity|]. by eexists.
Defined.

(** ** Sending *)

Lemma rev_app_length s1 s2 :
  String.length (String.rev_app s1 s2)
  = (String.length s1 + String.length s2)%nat.
Proof.
  revert s2. induction s1 as [|a s1 IH]; intros s2; simpl; [done|].
  rewrite IH. simpl. lia.
Qed.

Lemma allWhite_rev_app s1 s2 :
  allWhite (String.rev_app s1 s2) = allWhite s1 && allWhite s2.
Proof.
  revert s2. induction s1 as [|a s1 IH]; intros s2; simpl; [done|].
  rewrite IH. simpl. by destruct (isWhiteSpace a), (allWhite s1).
Qed.

Lemma trimStart_allWhite s : allWhite s = true → trimStart s = EmptyString.
Proof.
  induction s as [|a s IH]; simpl; [done|].
  intros [-> Hs]%andb_prop. by apply IH.
Qed.

Lemma trimStart_not_allWhite s :
  allWhite s = false →
  allWhite (trimStart s) = false ∧ String.length (trimStart s) ≠ 0%nat.
Proof.
  induction s as [|a s IH]; simpl; [done|].
  destruct (isWhiteSpace a) eqn:Ha; simpl; [done|].
  intros _. by rewrite Ha.
Qed.

Lemma trim_blank s :
  (String.length (trim s) =? 0)%nat = allWhite s.
Proof.
  unfold trim, String.rev. rewrite rev_app_length, Nat.add_0_r.
  destruct (allWhite s) eqn:Hs.
  - by rewrite (trimStart_allWhite s Hs).
  - destruct (trimStart_not_allWhite s Hs) as [Ht _].
    destruct (trimStart_not_allWhite (String.rev_app (trimStart s) EmptyString))
      as [_ Hlen].
    + by rewrite allWhite_rev_app, Ht.
    + by apply Nat.eqb_neq.
Qed.

Lemma sendNewMessage_blocked {App} isGenerating sendMessage viewingChat
    messages (s : Screen) (app : App) :
  allWhite (textareaValue s) = true ∨
  isGenerating app (default EmptyString (currConvId viewingChat)) = true →
  sendNewMessage isGenerating sendMessage viewingChat messages (s, app)
  = (tt, ({| currNodeId := currNodeId s; textareaValue := textareaValue s;
             extraItems := extraItems s;
             effects := effects s ++ [ToastError "Please enter a message"] |},
          app)).
Proof.
  intros Hguard.
  unfold sendNewMessage, mbind, Act_bind, textarea_value, generating.
  rewrite trim_blank.
  destruct Hguard as [-> | ->]; [done|]. by rewrite orb_true_r.
Qed.

Lemma sendNewMessage_sent {App} isGenerating sendMessage viewingChat messages
    (s : Screen) (app app' : App) ok ids :
  allWhite (textareaValue s) = false →
  isGenerating app (default EmptyString (currConvId viewingChat)) = false →
  sendMessage (currConvId viewingChat) (lastMsgId messages)
              (textareaValue s) (extraItems s) app = (ok, ids, app') →
  sendNewMessage isGenerating sendMessage viewingChat messages (s, app)
  = (tt, ({| currNodeId := default (-1) (last (truthyIds ids));
             textareaValue := if ok then EmptyString else textareaValue s;
             extraItems := [];
             effects :=
               effects s ++
               [ TextareaSetValue EmptyString; ScrollToBottom;
                 SetCurrNodeId (-1);
                 SendMessage (currConvId viewingChat) (lastMsgId messages)
                             (textareaValue s) (extraItems s) ] ++
               (SetCurrNodeId <$> truthyIds ids) ++
               (if ok then [] else [TextareaSetValue (textareaValue s)]) ++
               [ClearItems] |}, app')).
Proof.
  intros Hdraft Hgen Hsend.
  unfold sendNewMessage, mbind, Act_bind, textarea_value, generating.
  rewrite trim_blank.
  destruct s as [curr text items log].
  cbn [textareaValue extraItems effects] in *.
  rewrite Hgen, Hdraft. cbn [orb].
  unfold textarea_setValue, scrollToBottom, setCurrNodeId,
    extraContext_items, call_sendMessage, perform, mbind, Act_bind, mret,
    Act_ret.
  cbn [currNodeId textareaValue extraItems effects].
  rewrite Hsend, onChunks_run.
  cbn [currNodeId textareaValue extraItems effects].
  destruct ok; cbn [unless]; unfold textarea_setValue, extraContext_clearItems,
    perform, mret, Act_ret; cbn [currNodeId textareaValue extraItems effects];
    do 3 f_equal; rewrite <- ?app_assoc; simpl; rewrite <- ?app_assoc; done.
Qed.

(** X6: a draft made of white space only (the empty draft included) is not
    sent, whether or not a generation is running: [sendMessage] is not
    called, the draft, the attachments and the leaf pointer stay as they
    are, and an error toast is raised. *)
Theorem blank_draft_not_sent {App : Type}
    (isGenerating : App → string → bool)
    (sendMessage : option string → option Z → string → list ExtraItem →
                   App → bool * list (option Z) * App)
    viewingChat messages (s : Screen) (app : App) :
  allWhite (textareaValue s) = true →
  sendNewMessage isGenerating sendMessage viewingChat messages (s, app)
  = (tt, ({| currNodeId := currNodeId s; textareaValue := textareaValue s;
             extraItems := extraItems s;
             effects := effects s ++ [ToastError "Please enter a message"] |},
          app)).
Proof. intros Hblank. apply sendNewMessage_blocked. by left. Qed.

(** X7: a draft with a character that is not white space, in a conversation
    that is not generating, is handed to [sendMessage] as typed: the text is
    not trimmed, and it goes with the current attachments and the id of the
    last displayed message. *)
Theorem draft_sent_untrimmed {App : Type}
    (isGenerating : App → string → bool)
    (sendMessage : option string → option Z → string → list ExtraItem →
                   App → bool * list (option Z) * App)
    viewingChat messages (s : Screen) (app : App) :
  allWhite (textareaValue s) = false →
  isGenerating app (default EmptyString (currConvId viewingChat)) = false →
  let after :=
    sendNewMessage isGenerating sendMessage viewingChat messages (s, app) in
  after.2.2 =
    (sendMessage (currConvId viewingChat) (lastMsgId messages)
                 (textareaValue s) (extraItems s) app).2 ∧
  SendMessage (currConvId viewingChat) (lastMsgId messages)
              (textareaValue s) (extraItems s) ∈ effects after.2.1.
Proof.
  intros Hdraft Hgen after. subst after.
  destruct (sendMessage _ _ _ _ app) as [[ok ids] app'] eqn:Hsend.
  rewrite (sendNewMessage_sent _ _ _ _ _ _ _ _ _ Hdraft Hgen Hsend).
  split; [done|]. simpl.
  apply elem_of_app. right. do 3 apply list_elem_of_further.
  apply list_elem_of_here.
Qed.

Lemma draft_sent_untrimmed_witness :
  SendMessage None None "  hi  " []
  ∈ effects
      (sendNewMessage (λ (_ : unit) _, false)
         (λ _ _ _ _ app, (true, [], app)) None []
         ({| currNodeId := -1; textareaValue := "  hi  "; extraItems := [];
             effects := [] |}, tt)).2.1.
Proof.
  apply (draft_sent_untrimmed (λ (_ : unit) _, false)
           (λ _ _ _ _ app, (true, [], app)) None []
           {| currNodeId := -1; textareaValue := "  hi  "; extraItems := [];
              effects := [] |} tt).
  - reflexivity.
  - reflexivity.
Defined.

(** X8: after a send that passes the guard, the leaf pointer is the last
    truthy id that [sendMessage] reported through [onChunk]; when it
    reported none (or only 0 or nothing), the pointer is -1, the newest
    branch. *)
Theorem send_follows_stream {App : Type}
    (isGenerating : App → string → bool)
    (sendMessage : option string → option Z → string → list ExtraItem →
                   App → bool * list (option Z) * App)
    viewingChat messages (s : Screen) (app : App) :
  allWhite (textareaValue s) = false →
  isGenerating app (default EmptyString (currConvId viewingChat)) = false →
  let reported :=
    (sendMessage (currConvId viewingChat) (lastMsgId messages)
                 (textareaValue s) (extraItems s) app).1.2 in
  currNodeId
    (sendNewMessage isGenerating sendMessage viewingChat messages (s, app)).2.1
  = default (-1) (last (truthyIds reported)).
Proof.
  intros Hdraft Hgen reported. subst reported.
  destruct (sendMessage _ _ _ _ app) as [[ok ids] app'] eqn:Hsend.
  by rewrite (sendNewMessage_sent _ _ _ _ _ _ _ _ _ Hdraft Hgen Hsend).
Qed.

Lemma send_follows_stream_witness :
  currNodeId
    (sendNewMessage (λ (_ : unit) _, false)
       (λ _ _ _ _ app, (true, [Some 7; None; Some 0; Some 9; Some 0], app))
       None [] (draftScreen, tt)).2.1 = 9.
Proof.
  apply (send_follows_stream (λ (_ : unit) _, false)
           (λ _ _ _ _ app, (true, [Some 7; None; Some 0; Some 9; Some 0], app))
           None [] draftScreen tt).
  - reflexivity.
  - reflexivity.
Defined.

Lemma blank_draft_not_sent_witness :
  sendNewMessage (λ (_ : unit) _, false) (λ _ _ _ _ app, (true, [], app))
    None []
    ({| currNodeId := 2; textareaValue := "   "; extraItems := [];
        effects := [] |}, tt)
  = (tt, ({| currNodeId := 2; textareaValue := "   "; extraItems := [];
             effects := [ToastError "Please enter a message"] |}, tt)).
Proof.
  apply (blank_draft_not_sent (λ (_ : unit) _, false)
           (λ _ _ _ _ app, (true, [], app)) None []
           {| currNodeId := 2; textareaValue := "   "; extraItems := [];
              effects := [] |} tt).
  reflexivity.
Defined.

(** X9: without a viewed chat the memo gives no messages, so a send (of a
    draft that passes the guard, [isGenerating('')] being false) calls
    [sendMessage] with a [null] conversation id and a [null] leaf id. *)
Theorem send_without_chat {App : Type} helper fuel currNode
    (isGenerating : App → string → bool)
    (sendMessage : option string → option Z → string → list ExtraItem →
                   App → bool * list (option Z) * App)
    shownMessages (s : Screen) (app : App) :
  screenMessages helper fuel None currNode = Some shownMessages →
  allWhite (textareaValue s) = false →
  isGenerating app EmptyString = false →
  let after :=
    sendNewMessage isGenerating sendMessage None shownMessages (s, app) in
  after.2.2 = (sendMessage None None (textareaValue s) (extraItems s) app).2 ∧
  SendMessage None None (textareaValue s) (extraItems s) ∈ effects after.2.1.
Proof.
  intros [= <-] Hdraft Hgen after. subst after.
  destruct (sendMessage None None (textareaValue s) (extraItems s) app)
    as [[ok ids] app'] eqn:Hsend.
  rewrite (sendNewMessage_sent isGenerating sendMessage None [] s app app'
             ok ids Hdraft Hgen Hsend).
  split; [done|]. simpl.
  apply elem_of_app. right. do 3 apply list_elem_of_further.
  apply list_elem_of_here.
Qed.

Lemma send_without_chat_witness :
  SendMessage None None "draft" (extraItems draftScreen)
  ∈ effects
      (sendNewMessage (λ (_ : unit) _, false)
         (λ _ _ _ _ app, (true, [], app)) None [] (draftScreen, tt)).2.1.
Proof.
  apply (send_without_chat (StorageUtils.filterByLeafNodeId 0) 0 5
           (λ (_ : unit) _, false) (λ _ _ _ _ app, (true, [], app))
           [] draftScreen tt).
  - reflexivity.
  - reflexivity.
  - reflexivity.
Defined.

(** ** Edit and regenerate on the screen *)

(** X10: [handleEditMessage] and [handleRegenerateMessage] do nothing at all
    without a viewed chat.  With one, the edit first points the view at the
    edited message and the regeneration at its parent; both then call
    [replaceMessageAndGenerate] with the chat's id, the parent of the
    message and its extra (the new content for an edit, [null] for a
    regeneration), follow the ids reported through [onChunk], and end with
    the pointer reset to -1; neither touches the draft or the
    attachments. *)
Theorem edit_regenerate_on_screen {App : Type}
    (R : string → Z → option string → list ExtraItem → App →
         list (option Z) * App)
    (m : Message) (text : string) (s : Screen) (app : App) :
  handleEditMessage R None m text (s, app) = (tt, (s, app)) ∧
  handleRegenerateMessage R None m (s, app) = (tt, (s, app)) ∧
  ∀ chat,
    handleEditMessage R (Some chat) m text (s, app)
    = (tt, ({| currNodeId := -1; textareaValue := textareaValue s;
               extraItems := extraItems s;
               effects :=
                 effects s ++
                 [ SetCurrNodeId (id m); ScrollToBottom;
                   ReplaceMessageAndGenerate (convId chat) (parent m)
                     (Some text) (extra m) ] ++
                 (SetCurrNodeId <$>
                    truthyIds (R (convId chat) (parent m) (Some text)
                                 (extra m) app).1) ++
                 [SetCurrNodeId (-1); ScrollToBottom] |},
            (R (convId chat) (parent m) (Some text) (extra m) app).2)) ∧
    handleRegenerateMessage R (Some chat) m (s, app)
    = (tt, ({| currNodeId := -1; textareaValue := textareaValue s;
               extraItems := extraItems s;
               effects :=
                 effects s ++
                 [ SetCurrNodeId (parent m); ScrollToBottom;
                   ReplaceMessageAndGenerate (convId chat) (parent m)
                     None (extra m) ] ++
                 (SetCurrNodeId <$>
                    truthyIds (R (convId chat) (parent m) None
                                 (extra m) app).1) ++
                 [SetCurrNodeId (-1); ScrollToBottom] |},
            (R (convId chat) (parent m) None (extra m) app).2)).
Proof.
  split; [done|]. split; [done|]. intros chat.
  unfold handleEditMessage, handleRegenerateMessage,
    call_replaceMessageAndGenerate, mbind, Act_bind, setCurrNodeId,
    scrollToBottom, perform.
  destruct s as [curr draft items log].
  cbn [currNodeId textareaValue extraItems effects].
  split.
  - destruct (R (convId chat) (parent m) (Some text) (extra m) app)
      as [ids app'].
    rewrite onChunks_run. cbn [currNodeId textareaValue extraItems effects fst snd].
    do 3 f_equal. rewrite <- ?app_assoc. simpl. by rewrite <- ?app_assoc.
  - destruct (R (convId chat) (parent m) None (extra m) app) as [ids app'].
    rewrite onChunks_run. cbn [currNodeId textareaValue extraItems effects fst snd].
    do 3 f_equal. rewrite <- ?app_assoc. simpl. by rewrite <- ?app_assoc.
Qed.

(** ** The prefilled message *)

Lemma content_of_m params vm :
  prefilledMsg.get "m" params = Some vm → prefilledMsg.content params = vm.
Proof. unfold prefilledMsg.content. by intros ->. Qed.

(** X11: when the URL has a [q] parameter, the screen sends on mount instead
    of focusing the textarea, and what it sends is the prefilled content:
    the first [m] value when the URL has an [m] parameter as well, the first
    [q] value otherwise (for a content that is not blank and a conversation
    that is not generating; the textarea holds the prefilled content). *)
Theorem mount_sends_prefilled {App : Type}
    (isGenerating : App → string → bool)
    (sendMessage : option string → option Z → string → list ExtraItem →
                   App → bool * list (option Z) * App)
    params viewingChat messages (s : Screen) (app : App) :
  prefilledMsg.shouldSend params = true →
  textareaValue s = prefilledMsg.content params →
  allWhite (prefilledMsg.content params) = false →
  isGenerating app (default EmptyString (currConvId viewingChat)) = false →
  let after :=
    mountEffect isGenerating sendMessage params viewingChat messages (s, app) in
  after.1 = {| focused := false; cleanedParams := ["m"; "q"] |} ∧
  after.2.2 =
    (sendMessage (currConvId viewingChat) (lastMsgId messages)
                 (prefilledMsg.content params) (extraItems s) app).2 ∧
  (∀ vm, prefilledMsg.get "m" params = Some vm →
         SendMessage (currConvId viewingChat) (lastMsgId messages) vm
                     (extraItems s) ∈ effects after.2.1) ∧
  (∀ vq, prefilledMsg.get "m" params = None →
         prefilledMsg.get "q" params = Some vq →
         SendMessage (currConvId viewingChat) (lastMsgId messages) vq
                     (extraItems s) ∈ effects after.2.1).
Proof.
  intros Hq Htext Hdraft Hgen after. subst after.
  unfold mountEffect. rewrite Hq. cbn [fst snd].
  rewrite <- Htext in *.
  destruct (sendMessage (currConvId viewingChat) (lastMsgId messages)
              (textareaValue s) (extraItems s) app)
    as [[ok ids] app'] eqn:Hsend.
  rewrite (sendNewMessage_sent _ _ _ _ _ _ _ _ _ Hdraft Hgen Hsend).
  assert (SendMessage (currConvId viewingChat) (lastMsgId messages)
            (textareaValue s) (extraItems s)
          ∈ effects s ++
            [ TextareaSetValue EmptyString; ScrollToBottom; SetCurrNodeId (-1);
              SendMessage (currConvId viewingChat) (lastMsgId messages)
                (textareaValue s) (extraItems s) ] ++
            (SetCurrNodeId <$> truthyIds ids) ++
            (if ok then [] else [TextareaSetValue (textareaValue s)]) ++
            [ClearItems]) as Hin.
  { apply elem_of_app. right. do 3 apply list_elem_of_further.
    apply list_elem_of_here. }
  split_and!; [done|done| |].
  - intros vm Hm.
    assert (vm = textareaValue s) as ->
      by (rewrite Htext; symmetry; by apply content_of_m).
    exact Hin.
  - intros vq Hm Hvq.
    assert (vq = textareaValue s) as ->
      by (rewrite Htext; unfold prefilledMsg.content; by rewrite Hm, Hvq).
    exact Hin.
Qed.

Lemma mount_sends_prefilled_witness :
  SendMessage None None "from m" []
  ∈ effects
      (mountEffect (λ (_ : unit) _, false) (λ _ _ _ _ app, (true, [], app))
         [("q", "from q"); ("m", "from m")] None []
         ({| currNodeId := -1; textareaValue := "from m"; extraItems := [];
             effects := [] |}, tt)).2.1.
Proof.
  destruct (mount_sends_prefilled (λ (_ : unit) _, false)
              (λ _ _ _ _ app, (true, [], app))
              [("q", "from q"); ("m", "from m")] None []
              {| currNodeId := -1; textareaValue := "from m";
                 extraItems := []; effects := [] |} tt)
    as (_ & _ & Hm & _).
  - reflexivity.
  - reflexivity.
  - reflexivity.
  - reflexivity.
  - apply (Hm "from m"). reflexivity.
Defined.

(** X12: when the URL has a [q] parameter but the prefilled content is
    blank (as with [?q=], or with an empty [m] beside a [q] with text, since
    an [m] that is present wins even when empty), mount neither sends nor
    focuses the textarea: it raises the error toast and leaves the draft as
    it is. *)
Theorem mount_blank_prefill {App : Type}
    (isGenerating : App → string → bool)
    (sendMessage : option string → option Z → string → list ExtraItem →
                   App → bool * list (option Z) * App)
    params viewingChat messages (s : Screen) (app : App) :
  prefilledMsg.shouldSend params = true →
  textareaValue s = prefilledMsg.content params →
  allWhite (prefilledMsg.content params) = true →
  mountEffect isGenerating sendMessage params viewingChat messages (s, app)
  = ({| focused := false; cleanedParams := ["m"; "q"] |},
     ({| currNodeId := currNodeId s; textareaValue := textareaValue s;
         extraItems := extraItems s;
         effects := effects s ++ [ToastError "Please enter a message"] |},
      app)).
Proof.
  intros Hq Htext Hblank. unfold mountEffect. rewrite Hq.
  rewrite sendNewMessage_blocked; [done|]. left. by rewrite Htext.
Qed.

Lemma mount_blank_prefill_witness :
  mountEffect (λ (_ : unit) _, false) (λ _ _ _ _ app, (true, [], app))
    [("m", EmptyString); ("q", "hello")] None []
    ({| currNodeId := -1; textareaValue := EmptyString; extraItems := [];
        effects := [] |}, tt)
  = ({| focused := false; cleanedParams := ["m"; "q"] |},
     ({| currNodeId := -1; textareaValue := EmptyString; extraItems := [];
         effects := [ToastError "Please enter a message"] |}, tt)).
Proof.
  apply (mount_blank_prefill (λ (_ : unit) _, false)
           (λ _ _ _ _ app, (true, [], app))
           [("m", EmptyString); ("q", "hello")] None []
           {| currNodeId := -1; textareaValue := EmptyString;
              extraItems := []; effects := [] |} tt).
  - reflexivity.
  - reflexivity.
  - reflexivity.
Defined.

(** ** The rendered list *)

(** X13: the React keys of the rendered list, the ids of
    [[...messages, ...pendingMsgDisplay]], are pairwise distinct when the
    committed entries have distinct ids and the pending id does not occur
    before the last of them. *)
Theorem rendered_keys_distinct pendingMsg (messages : list MessageDisplay) :
  NoDup ((λ d, id (msg d)) <$> messages) →
  (∀ p, pendingMsg = Some p →
        Forall (λ d, id (msg d) ≠ id p) (removelast messages)) →
  NoDup ((λ d, id (msg d)) <$> displayed pendingMsg messages).
Proof.
  intros Hnd Hpre. unfold displayed, pendingMsgDisplay.
  destruct pendingMsg as [p|]; [|by rewrite app_nil_r].
  case_decide as Hlast; [|by rewrite app_nil_r].
  rewrite fmap_app. apply NoDup_app. split; [done|].
  split; [|apply NoDup_singleton].
  intros i Hi ->%list_elem_of_singleton. simpl in Hi.
  specialize (Hpre p eq_refl).
  destruct messages as [|x pre _] using rev_ind; [by apply elem_of_nil in Hi|].
  rewrite removelast_last in Hpre. rewrite lastMsgId_snoc in Hlast.
  rewrite fmap_app in Hi. apply elem_of_app in Hi as [Hi|Hi].
  - apply list_elem_of_fmap in Hi as (d & Hd & Hin).
    rewrite Forall_forall in Hpre. by apply (Hpre d Hin).
  - apply list_elem_of_singleton in Hi. congruence.
Qed.

Lemma rendered_keys_distinct_witness :
  NoDup ((λ d, id (msg d))
           <$> displayed (pendingMsgOf pendingByConv (Some "conv-1"))
                         committedPath).
Proof.
  apply (rendered_keys_distinct
           (pendingMsgOf pendingByConv (Some "conv-1")) committedPath).
  - apply NoDup_singleton.
  - intros p _. constructor.
Defined.

(** ** Pasting *)

(** X14: a pasted text becomes a context item named 'Pasted Content',
    holding the whole text, exactly when the configured length is positive
    and the text is longer than it: a length of 0 disables the conversion
    for every text.  When the text is converted, the files of the clipboard
    are ignored; otherwise the files among the clipboard items are added if
    there are any, and only when there are none is the paste left to the
    browser. *)
Theorem paste_long_text_as_item limit text items :
  let len := Z.of_nat (String.length text) in
  (0 < limit < len →
   ChatInput.onPasteCapture limit text items
   = (ChatInput.AddContextItem "Pasted Content" text, true)) ∧
  (¬ 0 < limit < len →
   ChatInput.onPasteCapture limit text items
   = match ChatInput.clipboardFiles items with
     | [] => (ChatInput.PasteAsUsual, false)
     | files => (ChatInput.AddFiles files, true)
     end).
Proof.
  intros len. unfold ChatInput.onPasteCapture. fold len. split.
  - intros [H1 H2].
    rewrite !bool_decide_eq_true_2 by lia. done.
  - intros Hn.
    assert (bool_decide (0 < len) && bool_decide (0 < limit)
            && bool_decide (limit < len) = false) as ->.
    { apply not_true_is_false. intros H.
      apply andb_prop in H as [H H3]. apply andb_prop in H as [H1 H2].
      apply bool_decide_eq_true in H2, H3. lia. }
    by destruct (ChatInput.clipboardFiles items).
Qed.

Lemma paste_long_text_as_item_witness :
  ChatInput.onPasteCapture 5 "a longer text" []
    = (ChatInput.AddContextItem "Pasted Content" "a longer text", true) ∧
  ChatInput.onPasteCapture 0 "a longer text"
    [ {| ChatInput.kind := "string"; ChatInput.getAsFile := None |};
      {| ChatInput.kind := "file"; ChatInput.getAsFile := Some "a.png" |} ]
    = (ChatInput.AddFiles ["a.png"], true).
Proof.
  split.
  - apply (proj1 (paste_long_text_as_item 5 "a longer text" [])).
    simpl. lia.
  - apply (proj2 (paste_long_text_as_item 0 "a longer text"
             [ {| ChatInput.kind := "string"; ChatInput.getAsFile := None |};
               {| ChatInput.kind := "file";
                  ChatInput.getAsFile := Some "a.png" |} ])).
    simpl. lia.
Defined.

(** ** Themes *)

(** X15: [THEMES] starts with light and dark, holds neither of them again
    after that, holds every key of the daisyUI theme object, and has no
    duplicate when the keys have none. *)
Theorem themes_light_dark_first daisyuiThemes :
  take 2 (Config.THEMES daisyuiThemes) = ["light"; "dark"] ∧
  ("light" ∉ drop 2 (Config.THEMES daisyuiThemes)) ∧
  ("dark" ∉ drop 2 (Config.THEMES daisyuiThemes)) ∧
  (∀ t, t ∈ Config.THEMES daisyuiThemes ↔
        t = "light" ∨ t = "dark" ∨ t ∈ daisyuiThemes) ∧
  (NoDup daisyuiThemes → NoDup (Config.THEMES daisyuiThemes)).
Proof.
  unfold Config.THEMES. simpl. split_and!.
  - done.
  - by intros [[? _] _]%list_elem_of_filter.
  - by intros [[_ ?] _]%list_elem_of_filter.
  - intros t. rewrite !elem_of_cons, list_elem_of_filter.
    destruct (decide (t = "light")) as [->|Hl]; [split; intros _; by left|].
    destruct (decide (t = "dark")) as [->|Hd];
      [split; intros _; right; by left|].
    split.
    + intros [?|[?|[_ ?]]]; [done|done|]. by right; right.
    + intros [?|[?|?]]; [done|done|]. by right; right.
  - intros Hnd. apply NoDup_cons. split.
    + rewrite elem_of_cons, list_elem_of_filter.
      intros [?|[[? _] _]]; done.
    + apply NoDup_cons. split.
      * rewrite list_elem_of_filter. by intros [[_ ?] _].
      * by apply NoDup_filter.
Qed.

Lemma themes_light_dark_first_witness :
  NoDup (Config.THEMES ["cupcake"; "dark"; "light"; "nord"]).
Proof.
  apply (themes_light_dark_first ["cupcake"; "dark"; "light"; "nord"]).
  compute_done.
Defined.

(** ** The model selector *)

(** X16: at every moment after mount, whatever model changes and model
    fetches have happened, the selected model is the one stored under
    [SELECTED_MODEL_KEY] (the empty selection when nothing is stored), and
    the last 'warriorgpt:model-changed' event, if any was dispatched,
    carries the selected model. *)
Theorem selection_persisted stored st :
  rtc Header.event (Header.mount stored) st →
  Header.selectedModel st = Header.storedOrEmpty st ∧
  (Header.dispatched st = [] ∨
   last (Header.dispatched st) = Some (Header.selectedModel st)).
Proof.
  intros Hsteps.
  assert (∀ a b, rtc Header.event a b →
            Header.selectedModel a = Header.storedOrEmpty a ∧
            (Header.dispatched a = [] ∨
             last (Header.dispatched a) = Some (Header.selectedModel a)) →
            Header.selectedModel b = Header.storedOrEmpty b ∧
            (Header.dispatched b = [] ∨
             last (Header.dispatched b) = Some (Header.selectedModel b)))
    as Hkept.
  { clear. induction 1 as [a|a b c Hev _ IH]; [done|].
    intros [Hsync Hlast]. apply IH.
    destruct Hev as [newName a|cancelled selectedAtMount resp a].
    - split; [done|]. right. simpl. by rewrite last_snoc.
    - unfold Header.fetchModels.
      destruct (resp ≫= Header.normalize) as [arr|]; [|done].
      destruct cancelled; [done|].
      destruct arr as [|first rest]; [done|].
      case_bool_decide; [|done].
      split; [done|]. right. simpl. by rewrite last_snoc. }
  apply (Hkept _ _ Hsteps). split; [by destruct stored|by left].
Qed.

Lemma selection_persisted_witness :
  Header.selectedModel
    (Header.handleChangeModel "llama-3"
       (Header.fetchModels false EmptyString
          (Some (Header.PayloadObject (Some ["phi-4"; "llama-3"]) None))
          (Header.mount None)))
  = "llama-3".
Proof.
  destruct (selection_persisted None
              (Header.handleChangeModel "llama-3"
                 (Header.fetchModels false EmptyString
                    (Some (Header.PayloadObject (Some ["phi-4"; "llama-3"])
                             None))
                    (Header.mount None)))) as [Hsync _].
  - eapply rtc_l; [apply Header.ev_fetch|].
    apply rtc_once. apply Header.ev_change.
  - rewrite Hsync. reflexivity.
Defined.

(** X17: fetching the models never replaces a selection that existed at
    mount, even when the selected model is not in the fetched list; a
    request that fails, a payload that is not recognised and a fetch that
    ends after the cleanup change nothing at all; otherwise the fetched list
    becomes the list of models and, when nothing was selected at mount and
    the list is not empty, its first model is selected, stored and
    announced. *)
Theorem fetch_keeps_selection cancelled selectedAtMount resp st :
  let st' := Header.fetchModels cancelled selectedAtMount resp st in
  (selectedAtMount ≠ EmptyString →
   Header.selectedModel st' = Header.selectedModel st ∧
   Header.storedModel st' = Header.storedModel st ∧
   Header.dispatched st' = Header.dispatched st) ∧
  (cancelled = true ∨ resp ≫= Header.normalize = None → st' = st) ∧
  (∀ arr, cancelled = false → resp ≫= Header.normalize = Some arr →
     Header.models st' = arr ∧
     ∀ first rest, arr = first :: rest → selectedAtMount = EmptyString →
       Header.selectedModel st' = Header.name first ∧
       Header.storedModel st' = Some (Header.name first) ∧
       Header.dispatched st' = Header.dispatched st ++ [Header.name first]).
Proof.
  simpl. unfold Header.fetchModels. split_and!.
  - intros Hsel.
    destruct (resp ≫= Header.normalize) as [arr|]; [|done].
    destruct cancelled; [done|].
    destruct arr as [|first rest]; [done|].
    by rewrite bool_decide_eq_false_2.
  - intros [-> | ->]; [|done].
    by destruct (resp ≫= Header.normalize).
  - intros arr -> ->. destruct arr as [|first rest]; [done|].
    case_bool_decide as Hsel; (split; [done|]).
    + by intros ?? [= <- <-] _.
    + by intros ?? _ ?.
Qed.

Lemma fetch_keeps_selection_witness :
  Header.selectedModel
    (Header.fetchModels false "old-model"
       (Some (Header.PayloadArray
                [ {| Header.name := "phi-4"; Header.display_name := None;
                     Header.kind := None |} ]))
       (Header.mount (Some "old-model")))
  = "old-model".
Proof.
  apply (fetch_keeps_selection false "old-model"
           (Some (Header.PayloadArray
                    [ {| Header.name := "phi-4"; Header.display_name := None;
                         Header.kind := None |} ]))
           (Header.mount (Some "old-model"))).
  discriminate.
Defined.

(** X18: a payload with a [data] array is read in the OpenAI format, a
    [models] array beside it being ignored: the models keep the order of
    [data], each is named by its id, is labelled by its id in the selector,
    and has the type 'openai'. *)
Theorem openai_payload_normalized data models :
  ∃ arr,
    Header.normalize (Header.PayloadObject (Some data) models) = Some arr ∧
    Header.name <$> arr = data ∧
    Header.optionLabel <$> arr = data ∧
    Forall (λ m, Header.kind m = Some "openai") arr.
Proof.
  eexists. split; [reflexivity|].
  induction data as [|i data (IH1 & IH2 & IH3)]; [done|].
  rewrite !fmap_cons, IH1, IH2. split_and!; [done| |by constructor].
  f_equal. unfold Header.optionLabel. simpl. by case_bool_decide.
Qed.

(** ** The server information card *)

Lemma rev_app_rev_app s a b :
  String.rev_app (String.rev_app s a) b = String.rev_app a (s +:+ b).
Proof.
  revert a b. induction s as [|c s IH]; intros a b; simpl; [done|].
  by rewrite IH.
Qed.

Lemma rev_app_append s1 s2 a :
  String.rev_app (s1 +:+ s2) a = String.rev_app s2 (String.rev_app s1 a).
Proof.
  revert a. induction s1 as [|c s1 IH]; intros a; simpl; [done|]. apply IH.
Qed.

Lemma string_app_cons c s t : String c s +:+ t = String c (s +:+ t).
Proof. reflexivity. Qed.

Lemma string_app_nil_l t : EmptyString +:+ t = t.
Proof. reflexivity. Qed.

Ltac string_simpl :=
  repeat (rewrite string_app_cons || rewrite string_app_nil_l); simpl.

Lemma string_app_nil_r s : s +:+ EmptyString = s.
Proof. induction s as [|c s IH]; string_simpl; [done|]. by rewrite IH. Qed.

Lemma string_app_length s1 s2 :
  String.length (s1 +:+ s2) = (String.length s1 + String.length s2)%nat.
Proof. induction s1 as [|c s1 IH]; string_simpl; [done|]. by rewrite IH. Qed.

Lemma rev_rev s : String.rev (String.rev s) = s.
Proof.
  unfold String.rev. rewrite rev_app_rev_app. simpl. apply string_app_nil_r.
Qed.

Lemma noSeparator_rev_app s1 s2 :
  noSeparator (String.rev_app s1 s2) = noSeparator s1 && noSeparator s2.
Proof.
  revert s2. induction s1 as [|c s1 IH]; intros s2; simpl; [done|].
  rewrite IH. simpl.
  by destruct (ServerInfo.isSeparator c), (noSeparator s1).
Qed.

Lemma noSeparator_app s1 s2 :
  noSeparator (s1 +:+ s2) = noSeparator s1 && noSeparator s2.
Proof.
  induction s1 as [|c s1 IH]; string_simpl; [done|]. rewrite IH.
  by rewrite andb_assoc.
Qed.

Lemma split_go_last cur s :
  noSeparator cur = true →
  ∃ x, last (ServerInfo.split_go cur s) = Some x ∧ noSeparator x = true.
Proof.
  revert cur. induction s as [|c s IH]; intros cur Hcur; simpl.
  - eexists. split; [done|]. unfold String.rev.
    by rewrite noSeparator_rev_app, Hcur.
  - destruct (ServerInfo.isSeparator c) eqn:Hc.
    + destruct (IH EmptyString eq_refl) as (x & Hx & Hns).
      exists x. split; [|done].
      rewrite !last_cons, Hx. done.
    + apply IH. simpl. by rewrite Hc.
Qed.

Lemma split_go_after_separator dir sep rest cur :
  ServerInfo.isSeparator sep = true →
  last (ServerInfo.split_go cur (dir +:+ String sep rest))
  = last (ServerInfo.split_go EmptyString rest).
Proof.
  intros Hsep. revert cur.
  assert (∀ cur, last (ServerInfo.split_go cur (String sep rest))
                 = last (ServerInfo.split_go EmptyString rest)) as Hbase.
  { intros cur. simpl. rewrite Hsep.
    destruct (split_go_last EmptyString rest eq_refl) as (x & Hx & _).
    by rewrite !last_cons, Hx. }
  induction dir as [|c dir IH]; intros cur; [apply Hbase|].
  change (String c dir +:+ String sep rest)
    with (String c (dir +:+ String sep rest)).
  simpl. destruct (ServerInfo.isSeparator c); [|apply IH].
  rewrite !last_cons, IH.
  destruct (split_go_last EmptyString rest eq_refl) as (x & Hx & _).
  by rewrite Hx.
Qed.

Lemma split_go_no_separator s cur :
  noSeparator s = true →
  ServerInfo.split_go cur s = [String.rev (String.rev_app s cur)].
Proof.
  revert cur. induction s as [|c s IH]; intros cur; simpl; [done|].
  destruct (ServerInfo.isSeparator c); [done|]. simpl. apply IH.
Qed.

Lemma stripSuffix_sound suffix s stem :
  ServerInfo.stripSuffix suffix s = Some stem → s = stem +:+ suffix.
Proof.
  revert stem. induction s as [|c s IH]; intros stem; simpl.
  - case_decide as Hs; [|done]. by intros [= <-].
  - case_decide as Hs; [by intros [= <-]|].
    destruct (ServerInfo.stripSuffix suffix s) as [stem'|]; [|done].
    intros [= <-]. string_simpl. by rewrite <- (IH stem').
Qed.

Lemma stripSuffix_append suffix stem :
  ServerInfo.stripSuffix suffix (stem +:+ suffix) = Some stem.
Proof.
  induction stem as [|c stem IH].
  - string_simpl. destruct suffix; simpl; by try case_decide.
  - string_simpl. rewrite IH. simpl. rewrite decide_False; [done|].
    intros Heq. apply (f_equal String.length) in Heq.
    simpl in Heq. rewrite string_app_length in Heq. lia.
Qed.

Lemma stripSuffix_no_separator suffix s stem :
  ServerInfo.stripSuffix suffix s = Some stem →
  noSeparator s = true → noSeparator stem = true.
Proof.
  intros ->%stripSuffix_sound. rewrite noSeparator_app.
  by intros [? _]%andb_prop.
Qed.

Lemma stripExtension_no_separator s :
  noSeparator s = true → noSeparator (ServerInfo.stripExtension s) = true.
Proof.
  intros Hs. unfold ServerInfo.stripExtension.
  destruct (ServerInfo.stripSuffix ".gguf" s) eqn:H1;
    [by eapply stripSuffix_no_separator|].
  destruct (ServerInfo.stripSuffix ".safetensors" s) eqn:H2;
    [by eapply stripSuffix_no_separator|].
  destruct (ServerInfo.stripSuffix ".bin" s) eqn:H3; simpl;
    [by eapply stripSuffix_no_separator|done].
Qed.

(** X19: the short name that the card computes from the model path never
    contains a path separator, whatever the path. *)
Theorem shortName_no_separator path :
  noSeparator (ServerInfo.shortName path) = true.
Proof.
  unfold ServerInfo.shortName, ServerInfo.split.
  destruct (split_go_last EmptyString path eq_refl) as (x & -> & Hx).
  simpl. by apply stripExtension_no_separator.
Qed.

Lemma lastChar_app s1 s2 :
  lastChar (s1 +:+ s2)
  = match lastChar s2 with Some d => Some d | None => lastChar s1 end.
Proof.
  induction s1 as [|c s1 IH]; string_simpl; [by destruct (lastChar s2)|].
  rewrite IH. by destruct (lastChar s2), (lastChar s1).
Qed.

Lemma stripSuffix_other_ending suffix ending stem e f :
  lastChar ending = Some e → lastChar suffix = Some f → e ≠ f →
  ServerInfo.stripSuffix suffix (stem +:+ ending) = None.
Proof.
  intros He Hf Hne.
  destruct (ServerInfo.stripSuffix suffix (stem +:+ ending)) as [p|] eqn:Hp;
    [|done].
  apply stripSuffix_sound, (f_equal lastChar) in Hp.
  rewrite !lastChar_app, He, Hf in Hp. congruence.
Qed.

(** X20: for a model path that ends, after a separator, in a file name made
    of a stem without separators and one of the extensions .gguf,
    .safetensors and .bin, the short name is the stem: the directories and
    that one extension are removed, nothing else. *)
Theorem shortName_of_model_file dir sep stem ext :
  ServerInfo.isSeparator sep = true →
  noSeparator stem = true →
  ext ∈ [".gguf"; ".safetensors"; ".bin"] →
  ServerInfo.shortName (dir +:+ String sep (stem +:+ ext)) = stem.
Proof.
  intros Hsep Hstem Hext.
  assert (noSeparator ext = true) as Hns.
  { repeat (apply elem_of_cons in Hext as [->|Hext]; [done|]).
    by apply elem_of_nil in Hext. }
  unfold ServerInfo.shortName, ServerInfo.split.
  rewrite (split_go_after_separator dir sep (stem +:+ ext) EmptyString Hsep).
  rewrite split_go_no_separator by (by rewrite noSeparator_app, Hstem, Hns).
  fold (String.rev (stem +:+ ext)). rewrite rev_rev. simpl.
  unfold ServerInfo.stripExtension.
  apply elem_of_cons in Hext as [->|Hext];
    [by rewrite stripSuffix_append|].
  apply elem_of_cons in Hext as [->|Hext].
  { rewrite (stripSuffix_other_ending ".gguf" ".safetensors" stem
               "s"%char "f"%char) by done.
    by rewrite stripSuffix_append. }
  apply list_elem_of_singleton in Hext as ->.
  rewrite (stripSuffix_other_ending ".gguf" ".bin" stem "n"%char "f"%char)
    by done.
  rewrite (stripSuffix_other_ending ".safetensors" ".bin" stem
             "n"%char "s"%char) by done.
  by rewrite stripSuffix_append.
Qed.

Lemma shortName_of_model_file_witness :
  ServerInfo.shortName "/srv/models/llama-3.Q4_K_M.gguf" = "llama-3.Q4_K_M".
Proof.
  apply (shortName_of_model_file "/srv/models" "/" "llama-3.Q4_K_M" ".gguf").
  - reflexivity.
  - reflexivity.
  - apply list_elem_of_here.
Defined.

(** X21: after the effect has run on a truthy model path and an ok response,
    the card shows Ready exactly when the build info is known and some model
    of the list matches (by name, by display name, or by a runtime argument
    contained in the path); a response that is not ok leaves the card as it
    was; an exception gives Unknown and Not Ready; and when no model matches,
    the name shown is the short name, or Unknown when that is empty. *)
Theorem ready_needs_match_and_build props data st :
  ServerInfo.model_path props ≠ EmptyString →
  let short := ServerInfo.shortName (ServerInfo.model_path props) in
  let found m :=
    m ∈ default [] data ∧
    ServerInfo.matches short (ServerInfo.model_path props) m = true in
  (ServerInfo.ready
     (ServerInfo.effect (Some props) (ServerInfo.Ok data) st) = true ↔
   ServerInfo.build_info props ≠ EmptyString ∧ ∃ m, found m) ∧
  ((∀ m, ¬ found m) →
   ServerInfo.displayName
     (ServerInfo.effect (Some props) (ServerInfo.Ok data) st)
   = Some (if decide (short = EmptyString) then "Unknown" else short)) ∧
  ServerInfo.effect (Some props) ServerInfo.NotOk st = st ∧
  ServerInfo.effect (Some props) ServerInfo.Throws st
  = {| ServerInfo.displayName := Some "Unknown"; ServerInfo.ready := false |}.
Proof.
  intros Hpath short found.
  assert (∀ resp, ServerInfo.effect (Some props) resp st
                  = ServerInfo.fetchModelsAndCheck props resp st) as Hrun.
  { intros resp. unfold ServerInfo.effect. by rewrite decide_False. }
  rewrite !Hrun. unfold ServerInfo.fetchModelsAndCheck. fold short.
  destruct (List.find _ (default [] data)) as [m|] eqn:Hfind.
  - apply find_some in Hfind as [Hin Hm]. apply list_elem_of_In in Hin.
    split_and!; [|intros Hnone; by destruct (Hnone m)|done|done].
    simpl. rewrite bool_decide_eq_true. split; [|by intros [? _]].
    intros Hb. split; [done|]. by exists m.
  - split_and!; [|done|done|done].
    simpl. split; [done|]. intros [_ (m & Hin & Hm)].
    apply list_elem_of_In in Hin.
    by rewrite (find_none _ _ Hfind m Hin) in Hm.
Qed.

Lemma ready_needs_match_and_build_witness :
  ServerInfo.ready
    (ServerInfo.effect
       (Some {| ServerInfo.model_path := "/srv/models/phi-4.gguf";
                ServerInfo.build_info := "b4242" |})
       (ServerInfo.Ok
          (Some [ {| ServerInfo.name := Some "phi-4";
                     ServerInfo.display_name := Some "Phi 4";
                     ServerInfo.runtime_args := None |} ]))
       ServerInfo.initial) = true.
Proof.
  apply (ready_needs_match_and_build
           {| ServerInfo.model_path := "/srv/models/phi-4.gguf";
              ServerInfo.build_info := "b4242" |}
           (Some [ {| ServerInfo.name := Some "phi-4";
                      ServerInfo.display_name := Some "Phi 4";
                      ServerInfo.runtime_args := None |} ])
           ServerInfo.initial).
  - discriminate.
  - split; [discriminate|]. eexists. split; [apply list_elem_of_here|].
    reflexivity.
Defined.
